(** * merry-tree: gesture classifier, scene state machine, photo selector
      and particle layout

    A shallow embedding of the algorithmic core of the application:
    - [types.ts]            : [TreeState], [AppState];
    - [HandTracker.tsx]     : [onResults], [analyzeGesture];
    - [Sidebar.tsx], [App]  : the state updaters of [App] and the angular
                              photo selector inside [handleGestureUpdate];
    - [Scene.tsx]           : the particle generator of [TreeParticles].

    JavaScript numbers that carry measurements (landmark coordinates, angles,
    positions) are read as real numbers: [Math.sqrt], [Math.sin], [Math.cos],
    [Math.atan2], [Math.floor] and [%] are their exact counterparts, and
    [Infinity] is a separate point of the extended line.  Indices, counters and
    millisecond timestamps are integers.  [Math.random] is a stream of reals
    consumed one value per call.

    The loop of the photo selector is embedded a second time on IEEE 754
    doubles, the numbers the program computes with: where two slots are
    equally far from the target in exact arithmetic, rounding decides
    between them. *)

From Stdlib Require Import Reals Lra Lia ZArith List String Bool Arith.
From Stdlib Require PrimFloat FloatOps SpecFloat Uint63 FloatAxioms.
Import ListNotations.

(** ** JavaScript arithmetic on the reals *)

Module Js.

Local Open Scope R_scope.

(** [a < b] as a JavaScript boolean. *)
Definition ltb (a b : R) : bool := if Rlt_dec a b then true else false.

(** A number that may be [Infinity]. *)
Inductive Num : Type :=
| Finite (r : R)
| Infinity.

(** [d < m] where [m] may be [Infinity]. *)
Definition lt_num (d : R) (m : Num) : bool :=
  match m with
  | Finite r => ltb d r
  | Infinity => true
  end.

(** Rounding toward zero, as the remainder operator does. *)
Definition trunc (r : R) : Z :=
  if Rle_dec 0 r then Int_part r else (- Int_part (- r))%Z.

(** [a % b]: the remainder has the sign of the dividend. *)
Definition rem (a b : R) : R := a - IZR (trunc (a / b)) * b.

(** [Math.floor]. *)
Definition floor (r : R) : Z := Int_part r.

(** [Math.atan2(y, x)], the angle of the vector [(x, y)] in [(-PI, PI]]. *)
Definition atan2 (y x : R) : R :=
  if Rlt_dec 0 x then atan (y / x)
  else if Rlt_dec x 0 then
         if Rle_dec 0 y then atan (y / x) + PI else atan (y / x) - PI
  else if Rlt_dec 0 y then PI / 2
  else if Rlt_dec y 0 then - (PI / 2)
  else 0.

End Js.

(** ** types.ts *)

Inductive TreeState : Type :=
| GATHERED
| SCATTERED
| FOCUS.

Definition TreeState_eqb (a b : TreeState) : bool :=
  match a, b with
  | GATHERED, GATHERED | SCATTERED, SCATTERED | FOCUS, FOCUS => true
  | _, _ => false
  end.

Record AppState : Type := mkAppState {
  treeState : TreeState;
  useGestures : bool;
  currentGesture : string;
  photos : list string;
  bgmUrl : option string;
  focusedPhotoIndex : option Z;
  customText : string
}.

(** The [{x, y}] pair the tracker reports with a gesture. *)
Record Rotation : Type := mkRotation { rot_x : R; rot_y : R }.

(** ** App.tsx: the application controller *)

Module App.

Local Open Scope R_scope.
Local Open Scope string_scope.

(** [DEPLOY_CONFIG]. *)
Definition defaultBgm : string := "".
Definition defaultPhotos : list string := [].
Definition defaultText : string := "MERRY CHRISTMAS".

(** The argument of [useState<AppState>]. *)
Definition initialState : AppState :=
  {| treeState := GATHERED;
     useGestures := false;
     currentGesture := "None";
     photos := defaultPhotos;
     bgmUrl := Some defaultBgm;
     focusedPhotoIndex := None;
     customText := defaultText |}.

(** [rotation || { x: 0, y: 0 }]. *)
Definition currentRotation (rotation : option Rotation) : Rotation :=
  match rotation with
  | Some r => r
  | None => mkRotation 0 0
  end.

(** Steps 1 to 4 of the pinch branch: the camera sits at
    [(sin camTheta, cos camTheta)]; its angle in the photo coordinate system,
    normalised to [0 ... 2 PI]. *)
Definition targetAngle (rotation : Rotation) : R :=
  let camTheta := rot_x rotation * 3 in
  let camX := sin camTheta in
  let camZ := cos camTheta in
  let targetDirX := camX in
  let targetDirZ := camZ in
  let a := Js.atan2 targetDirZ targetDirX in
  if Js.ltb a 0 then a + PI * 2 else a.

(** [angleStep], for a list of [n] photos. *)
Definition angleStep (n : nat) : R := (PI * 2) / Rmax 1 (INR n).

(** The angular difference the loop body computes for photo [i]. *)
Definition slotDiff (target step : R) (i : nat) : R :=
  let pTheta := INR i * step in
  let pTheta := Js.rem pTheta (PI * 2) in
  let diff := Rabs (target - pTheta) in
  if Js.ltb PI diff then (PI * 2) - diff else diff.

(** One round of [prev.photos.forEach((_, i) => ...)] on the pair
    [(closestIndex, minDiff)]. *)
Definition selectStep (target step : R) (acc : Z * Js.Num) (i : nat)
  : Z * Js.Num :=
  let '(closestIndex, minDiff) := acc in
  let diff := slotDiff target step i in
  if Js.lt_num diff minDiff then (Z.of_nat i, Js.Finite diff)
  else (closestIndex, minDiff).

(** The whole loop, from [closestIndex = -1] and [minDiff = Infinity], in
    exact arithmetic; [Double.selectLoop] is the same loop on doubles. *)
Definition selectLoop (target : R) (n : nat) : Z * Js.Num :=
  fold_left (selectStep target (angleStep n)) (seq 0 n) ((-1)%Z, Js.Infinity).

Definition closestIndex (target : R) (photos : list string) : Z :=
  fst (selectLoop target (List.length photos)).

(** The updater [prev => ...] that [handleGestureUpdate] passes to
    [setAppState]. *)
Definition gestureUpdater (gesture : string) (rotation : option Rotation)
  (prev : AppState) : AppState :=
  let newState := treeState prev in
  let newFocusedIndex := focusedPhotoIndex prev in
  let rot := currentRotation rotation in
  let '(newState, newFocusedIndex) :=
    if String.eqb gesture "Fist" then (GATHERED, None)
    else if String.eqb gesture "Open" then (SCATTERED, None)
    else if String.eqb gesture "Pinch" then
      if negb (String.eqb (currentGesture prev) "Pinch")
         && TreeState_eqb (treeState prev) SCATTERED
      then
        if (0 <? List.length (photos prev))%nat
        then (newState, Some (closestIndex (targetAngle rot) (photos prev)))
        else (newState, newFocusedIndex)
      else (newState, newFocusedIndex)
    else (newState, newFocusedIndex) in
  {| treeState := newState;
     useGestures := useGestures prev;
     currentGesture := gesture;
     photos := photos prev;
     bgmUrl := bgmUrl prev;
     focusedPhotoIndex := newFocusedIndex;
     customText := customText prev |}.

(** [handleGestureUpdate].  [appState] is the state the callback closed
    over; the result is applied to the state being updated. *)
Definition handleGestureUpdate (appState : AppState) (gesture : string)
  (rotation : option Rotation) (prev : AppState) : AppState :=
  if negb (useGestures appState) then prev
  else gestureUpdater gesture rotation prev.

Definition addPhoto (url : string) (prev : AppState) : AppState :=
  {| treeState := treeState prev;
     useGestures := useGestures prev;
     currentGesture := currentGesture prev;
     photos := photos prev ++ [url];
     bgmUrl := bgmUrl prev;
     focusedPhotoIndex := focusedPhotoIndex prev;
     customText := customText prev |}.

(** [arr.filter((_, i) => i !== index)], scanning from position [i]. *)
Fixpoint filterIndex (index : Z) (i : nat) (arr : list string) : list string :=
  match arr with
  | [] => []
  | p :: rest =>
      if Z.eqb (Z.of_nat i) index then filterIndex index (S i) rest
      else p :: filterIndex index (S i) rest
  end.

Definition removePhoto (index : Z) (prev : AppState) : AppState :=
  {| treeState := treeState prev;
     useGestures := useGestures prev;
     currentGesture := currentGesture prev;
     photos := filterIndex index 0 (photos prev);
     bgmUrl := bgmUrl prev;
     focusedPhotoIndex := focusedPhotoIndex prev;
     customText := customText prev |}.

Definition toggleGesture (prev : AppState) : AppState :=
  {| treeState := treeState prev;
     useGestures := negb (useGestures prev);
     currentGesture := currentGesture prev;
     photos := photos prev;
     bgmUrl := bgmUrl prev;
     focusedPhotoIndex := focusedPhotoIndex prev;
     customText := customText prev |}.

Definition setBgm (url : string) (prev : AppState) : AppState :=
  {| treeState := treeState prev;
     useGestures := useGestures prev;
     currentGesture := currentGesture prev;
     photos := photos prev;
     bgmUrl := Some url;
     focusedPhotoIndex := focusedPhotoIndex prev;
     customText := customText prev |}.

Definition setCustomText (text : string) (prev : AppState) : AppState :=
  {| treeState := treeState prev;
     useGestures := useGestures prev;
     currentGesture := currentGesture prev;
     photos := photos prev;
     bgmUrl := bgmUrl prev;
     focusedPhotoIndex := focusedPhotoIndex prev;
     customText := text |}.

Definition toggleTreeState (prev : AppState) : AppState :=
  {| treeState :=
       if TreeState_eqb (treeState prev) GATHERED then SCATTERED else GATHERED;
     useGestures := useGestures prev;
     currentGesture := currentGesture prev;
     photos := photos prev;
     bgmUrl := bgmUrl prev;
     focusedPhotoIndex := None;
     customText := customText prev |}.

(** [handlePhotoClick]: the guard reads the state the handler closed over. *)
Definition handlePhotoClick (appState : AppState) (index : Z)
  (prev : AppState) : AppState :=
  if negb (useGestures appState) && TreeState_eqb (treeState appState) SCATTERED
  then
    {| treeState := treeState prev;
       useGestures := useGestures prev;
       currentGesture := currentGesture prev;
       photos := photos prev;
       bgmUrl := bgmUrl prev;
       focusedPhotoIndex :=
         match focusedPhotoIndex prev with
         | Some f => if Z.eqb f index then None else Some index
         | None => Some index
         end;
       customText := customText prev |}
  else prev.

(** Everything that can reach the controller. *)
Inductive Event : Type :=
| GestureUpdate (gesture : string) (rotation : option Rotation)
| AddPhoto (url : string)
| RemovePhoto (index : Z)
| ToggleGesture
| SetBgm (url : string)
| SetCustomText (text : string)
| ToggleTreeState
| PhotoClick (index : Z).

(** One event, handled after the previous update has been rendered: the
    handlers close over the state they update. *)
Definition step (st : AppState) (ev : Event) : AppState :=
  match ev with
  | GestureUpdate g r => handleGestureUpdate st g r st
  | AddPhoto url => addPhoto url st
  | RemovePhoto i => removePhoto i st
  | ToggleGesture => toggleGesture st
  | SetBgm url => setBgm url st
  | SetCustomText t => setCustomText t st
  | ToggleTreeState => toggleTreeState st
  | PhotoClick i => handlePhotoClick st i st
  end.

Definition run (evs : list Event) (st : AppState) : AppState :=
  fold_left step evs st.

(** The states a sequence of gesture callbacks goes through, the state
    before each callback first. *)
Fixpoint gestureTrace (gs : list (string * option Rotation)) (st : AppState)
  : list AppState :=
  match gs with
  | [] => []
  | (g, r) :: rest => st :: gestureTrace rest (gestureUpdater g r st)
  end.

End App.

(** ** HandTracker.tsx: the gesture classifier *)

Module HandTracker.

Local Open Scope R_scope.
Local Open Scope string_scope.

(** One normalised landmark of the detector. *)
Record Landmark : Type := mkLandmark { lx : R; ly : R; lz : R }.

(** What the detector hands to [onResults]: [multiHandLandmarks] may be
    missing, and holds one landmark array per detected hand. *)
Record Results : Type := mkResults {
  multiHandLandmarks : option (list (list Landmark))
}.

(** The refs of the component and the [active] flag of its effect. *)
Record Refs : Type := mkRefs {
  active : bool;
  lastLandmarks : option (list (list Landmark));
  isProcessing : bool;
  lastHandPos : option (R * R);
  lastAnalysisTime : Z
}.

(** A call of [onGestureUpdate(gesture, rotation)]. *)
Definition Emission : Type := (string * option Rotation)%type.

(** Computations over the refs that may throw: the refs written before a
    throw stay written. *)
Definition M (A : Type) : Type := Refs -> Refs * option A.

Definition ret {A} (a : A) : M A := fun s => (s, Some a).

Definition bind {A B} (m : M A) (k : A -> M B) : M B :=
  fun s =>
    match m s with
    | (s', Some a) => k a s'
    | (s', None) => (s', None)
    end.

Definition throw {A} : M A := fun s => (s, None).
Definition get : M Refs := fun s => (s, Some s).
Definition put (s : Refs) : M unit := fun _ => (s, Some tt).

Notation "x <- m ;; k" := (bind m (fun x => k))
  (at level 61, m at next level, right associativity).
Notation "m ;;; k" := (bind m (fun _ => k))
  (at level 61, right associativity).

(** [landmarks[i]] followed by a property read: a [TypeError] when the
    array has no such element. *)
Definition at_ (landmarks : list Landmark) (i : nat) : M Landmark :=
  match nth_error landmarks i with
  | Some l => ret l
  | None => throw
  end.

(** The velocity check, from the refs as they are before the sample. *)
Definition handSpeed (refs : Refs) (handX handY : R) (now : Z) : R :=
  match lastHandPos refs with
  | Some (px, py) =>
      if (0 <? lastAnalysisTime refs)%Z then
        let dt := IZR (now - lastAnalysisTime refs) / 1000 in
        if Js.ltb 0 dt then
          let dx := handX - px in
          let dy := handY - py in
          sqrt (dx * dx + dy * dy) / dt
        else 0
      else 0
  | None => 0
  end.

(** [[...].filter(Boolean).length]. *)
Definition fingersOpenCount (isIndexOpen isMiddleOpen isRingOpen isPinkyOpen : bool)
  : nat :=
  List.length (filter (fun b : bool => b)
                 [isIndexOpen; isMiddleOpen; isRingOpen; isPinkyOpen]).

(** Thumb tip to index tip, in three dimensions. *)
Definition pinchDistance (l8 l4 : Landmark) : R :=
  sqrt ((lx l8 - lx l4) ^ 2 + (ly l8 - ly l4) ^ 2 + (lz l8 - lz l4) ^ 2).

(** The [if / else if] chain that picks the label. *)
Definition gestureOf (pinchDist : R) (isMovingFast : bool) (count : nat)
  : string :=
  if Js.ltb pinchDist 0.06 && negb isMovingFast then "Pinch"
  else if (count =? 0)%nat then "Fist"
  else if (4 <=? count)%nat then "Open"
  else "None".

Definition analyzeGesture (landmarks : list Landmark) (now : Z) : M Emission :=
  l9 <- at_ landmarks 9 ;;
  let handX := lx l9 in
  let handY := ly l9 in
  refs <- get ;;
  let speed := handSpeed refs handX handY now in
  put {| active := active refs;
         lastLandmarks := lastLandmarks refs;
         isProcessing := isProcessing refs;
         lastHandPos := Some (handX, handY);
         lastAnalysisTime := now |} ;;;
  let isMovingFast := Js.ltb 1 speed in
  l8 <- at_ landmarks 8 ;;
  l6 <- at_ landmarks 6 ;;
  let isIndexOpen := Js.ltb (ly l8) (ly l6) in
  l12 <- at_ landmarks 12 ;;
  l10 <- at_ landmarks 10 ;;
  let isMiddleOpen := Js.ltb (ly l12) (ly l10) in
  l16 <- at_ landmarks 16 ;;
  l14 <- at_ landmarks 14 ;;
  let isRingOpen := Js.ltb (ly l16) (ly l14) in
  l20 <- at_ landmarks 20 ;;
  l18 <- at_ landmarks 18 ;;
  let isPinkyOpen := Js.ltb (ly l20) (ly l18) in
  let count := fingersOpenCount isIndexOpen isMiddleOpen isRingOpen isPinkyOpen in
  l4 <- at_ landmarks 4 ;;
  let pinchDist := pinchDistance l8 l4 in
  let gesture := gestureOf pinchDist isMovingFast count in
  let x := (0.5 - lx l9) * 2 * 1.5 in
  let y := (ly l9 - 0.5) * 2 * 1.5 in
  ret (gesture, Some (mkRotation x y)).

(** The callback registered with [hands.onResults].  [None] as a value
    means that nothing was reported to the application. *)
Definition onResults (results : Results) (now : Z) : M (option Emission) :=
  refs <- get ;;
  if negb (active refs) then ret None
  else
    e <- match multiHandLandmarks results with
         | Some (hand :: others) =>
             put {| active := active refs;
                    lastLandmarks := Some (hand :: others);
                    isProcessing := isProcessing refs;
                    lastHandPos := lastHandPos refs;
                    lastAnalysisTime := lastAnalysisTime refs |} ;;;
             analyzeGesture hand now
         | _ =>
             put {| active := active refs;
                    lastLandmarks := None;
                    isProcessing := isProcessing refs;
                    lastHandPos := None;
                    lastAnalysisTime := lastAnalysisTime refs |} ;;;
             ret ("None", None)
         end ;;
    refs' <- get ;;
    put {| active := active refs';
           lastLandmarks := lastLandmarks refs';
           isProcessing := false;
           lastHandPos := lastHandPos refs';
           lastAnalysisTime := lastAnalysisTime refs' |} ;;;
    ret (Some e).

(** The refs after the clean-up at the start of the effect, once the
    tracker runs. *)
Definition freshRefs : Refs :=
  {| active := true;
     lastLandmarks := None;
     isProcessing := false;
     lastHandPos := None;
     lastAnalysisTime := 0 |}.

End HandTracker.

(** ** Scene.tsx: the particle generator of [TreeParticles] *)

Module Scene.

Local Open Scope R_scope.

Record Vector3 : Type := mkVector3 { vx : R; vy : R; vz : R }.

Inductive ParticleType : Type :=
| ribbon
| core
| structure
| ornament.

Record Particle : Type := mkParticle {
  gatheredPos : Vector3;
  scatteredPos : Vector3;
  lerpSpeed : R;
  phase : R;
  sizeScale : R;
  brightness : R;
  type : ParticleType;
  twinkleSpeed : R;
  twinkleOffset : R;
  isHeart : bool
}.

(** Tree physics and layout configuration. *)
Definition treeHeight : R := 15.
Definition baseRadius : R := 7.5.
Definition numSpirals : nat := 5.
Definition loopsPerSpiral : R := 4.5.

(** [Math.floor(count * 0.15)]. *)
Definition coreCount (count : nat) : nat :=
  Z.to_nat (Js.floor (INR count * 0.15)).

(** The left-hand side of the heart test at [(hx, hy, hz)]. *)
Definition heartValue (hx hy hz : R) : R :=
  let x2 := hx * hx in
  let y2 := hy * hy in
  let z2 := hz * hz in
  let y3 := y2 * hy in
  (x2 + 2.25 * z2 + y2 - 1) ^ 3 - x2 * y3 - 0.1125 * z2 * y3.

(** The variables of the rejection loop. *)
Record HeartVars : Type := mkHeartVars {
  done : bool;
  attempts : nat;
  hx : R;
  hy : R;
  hz : R
}.

Section Generator.

(** The values [Math.random()] returns, in the order of the calls. *)
Variable rng : nat -> R.

(** A computation that draws random numbers; the state is the number of
    draws made so far.  [None]: a loop was cut off by its fuel. *)
Definition Gen (A : Type) : Type := nat -> option (A * nat).

Definition ret {A} (a : A) : Gen A := fun p => Some (a, p).

Definition bind {A B} (m : Gen A) (k : A -> Gen B) : Gen B :=
  fun p =>
    match m p with
    | Some (a, p') => k a p'
    | None => None
    end.

Definition random : Gen R := fun p => Some (rng p, S p).

Definition outOfFuel {A} : Gen A := fun _ => None.

Notation "x <- m ;; k" := (bind m (fun x => k))
  (at level 61, m at next level, right associativity).

(** [while (!done && attempts < 100) { ... }], unrolled [fuel] times at
    most. *)
Fixpoint heartLoop (fuel : nat) (v : HeartVars) : Gen HeartVars :=
  if negb (done v) && (attempts v <? 100)%nat then
    match fuel with
    | O => outOfFuel
    | S fuel' =>
        r1 <- random ;;
        r2 <- random ;;
        r3 <- random ;;
        let hx' := r1 * 3 - 1.5 in
        let hy' := r2 * 3 - 1.5 in
        let hz' := r3 * 3 - 1.5 in
        let done' := if Js.ltb (heartValue hx' hy' hz') 0 then true else done v in
        heartLoop fuel' (mkHeartVars done' (S (attempts v)) hx' hy' hz')
    end
  else ret v.

(** The loop from its initial variables, with as much fuel as its guard
    allows rounds. *)
Definition heartSearch : Gen HeartVars :=
  heartLoop 100 (mkHeartVars false 0 0 0 0).

(** [if (!done) { hx=0; hy=0; hz=0; }]. *)
Definition heartFallback (v : HeartVars) : HeartVars :=
  if negb (done v) then mkHeartVars (done v) (attempts v) 0 0 0 else v.

(** The core branch: gathered position, size scale, brightness, type. *)
Definition coreBranch : Gen (Vector3 * R * R * ParticleType) :=
  r1 <- random ;;
  let h := (r1 - 0.5) * treeHeight in
  let ratio := (h + treeHeight / 2) / treeHeight in
  let coneR := (1 - ratio) * baseRadius in
  r2 <- random ;;
  let r := sqrt r2 * coneR * 0.4 in
  r3 <- random ;;
  let rTheta := r3 * PI * 2 in
  r4 <- random ;;
  ret (mkVector3 (cos rTheta * r) h (sin rTheta * r), 0.4 + r4 * 0.4, 0.4, core).

(** The spiral branch of index [i]. *)
Definition spiralBranch (i : nat) : Gen (Vector3 * R * R * ParticleType) :=
  let isOrnament := (i mod 30 =? 0)%nat in
  let isRibbon := negb isOrnament && (i mod 6 =? 0)%nat in
  let type :=
    if isOrnament then ornament else if isRibbon then ribbon else structure in
  tBase <- random ;;
  let h := - treeHeight / 2 + tBase * treeHeight in
  let radiusRatio := 1 - tBase in
  let spiralIndex := (i mod numSpirals)%nat in
  let spiralOffset := (INR spiralIndex / INR numSpirals) * PI * 2 in
  let theta := tBase * loopsPerSpiral * PI * 2 + spiralOffset in
  if isRibbon then
    let r := radiusRatio * baseRadius + 0.1 in
    ret (mkVector3 (cos theta * r) h (sin theta * r), 1.2, 1.5, type)
  else if isOrnament then
    r1 <- random ;;
    let ornamentTheta := theta + (r1 - 0.5) in
    let r := radiusRatio * baseRadius + 0.4 in
    ret (mkVector3 (cos ornamentTheta * r) h (sin ornamentTheta * r),
         2.5, 2.0, type)
  else
    let rBase := radiusRatio * baseRadius in
    r1 <- random ;;
    let rJitter := (r1 - 0.5) * 1.8 in
    r2 <- random ;;
    let hJitter := (r2 - 0.5) * 1.2 in
    r3 <- random ;;
    let thetaJitter := (r3 - 0.5) * 0.5 in
    let r := Rmax 0.2 (rBase + rJitter) in
    r4 <- random ;;
    ret (mkVector3 (cos (theta + thetaJitter) * r) (h + hJitter)
           (sin (theta + thetaJitter) * r),
         0.3 + r4 * 0.5, 0.7, type).

(** The scattered position, with the size scale it leaves. *)
Definition scatter (isHeart : bool) (sizeScale : R) : Gen (Vector3 * R) :=
  if isHeart then
    v <- heartSearch ;;
    let v := heartFallback v in
    ret (mkVector3 (hx v * 1.2) (hy v * 1.2 - 3.5) (hz v * 1.2), sizeScale)
  else
    r1 <- random ;;
    let r := 8 + r1 * 42 in
    r2 <- random ;;
    let theta := r2 * PI * 2 in
    r3 <- random ;;
    ret (mkVector3 (r * cos theta) ((r3 - 0.5) * 30 + 5) (r * sin theta),
         sizeScale * 1.5).

(** The body of [for (let i = 0; i < count; i++)]. *)
Definition particle (count i : nat) : Gen Particle :=
  r1 <- random ;;
  let twinkleSpeed := r1 * 5 + 1 in
  r2 <- random ;;
  let twinkleOffset := r2 * PI * 2 in
  g <- (if (i <? coreCount count)%nat then coreBranch else spiralBranch i) ;;
  let '(gatheredPos, sizeScale, brightness, type) := g in
  r3 <- random ;;
  let isHeart := Js.ltb r3 0.6 in
  s <- scatter isHeart sizeScale ;;
  let '(scatteredPos, sizeScale) := s in
  r4 <- random ;;
  r5 <- random ;;
  ret {| gatheredPos := gatheredPos;
         scatteredPos := scatteredPos;
         lerpSpeed := 0.05 + r4 * 0.1;
         phase := r5 * PI * 2;
         sizeScale := sizeScale;
         brightness := brightness;
         type := type;
         twinkleSpeed := twinkleSpeed;
         twinkleOffset := twinkleOffset;
         isHeart := isHeart |}.

(** The loop over [i], with [todo] rounds left and [temp] filled so far. *)
Fixpoint particlesFrom (count todo i : nat) (temp : list Particle)
  : Gen (list Particle) :=
  match todo with
  | O => ret temp
  | S todo' =>
      p <- particle count i ;;
      particlesFrom count todo' (S i) (temp ++ [p])
  end.

(** The [useMemo] body for [config.count = count]. *)
Definition particles (count : nat) : Gen (list Particle) :=
  particlesFrom count count 0 [].

End Generator.

End Scene.

(** ** App.tsx: the selector loop on doubles *)

Module Double.

Import PrimFloat FloatOps SpecFloat.
Local Open Scope float_scope.

(** [Math.PI]. *)
Definition PI : float := 0x1.921fb54442d18p+1.

(** An array index or length, below [2^32], as a number. *)
Definition ofNat (n : nat) : float := of_uint63 (Uint63.of_Z (Z.of_nat n)).

(** [Math.max(a, b)]. *)
Definition max (a b : float) : float :=
  if is_nan a || is_nan b then nan
  else if a <? b then b
  else if b <? a then a
  else if get_sign a then b else a.

(** [a % b]: the exact remainder of the division rounded toward zero, with
    the sign of the dividend. *)
Definition rem (a b : float) : float :=
  match Prim2SF a, Prim2SF b with
  | S754_nan, _ | _, S754_nan => nan
  | S754_infinity _, _ => nan
  | _, S754_zero _ => nan
  | _, S754_infinity _ => a
  | S754_zero _, _ => a
  | S754_finite sa ma ea, S754_finite _ mb eb =>
      let e := Z.min ea eb in
      let r := ((Z.pos ma * 2 ^ (ea - e)) mod (Z.pos mb * 2 ^ (eb - e)))%Z in
      match r with
      | Z.pos p => SF2Prim (S754_finite sa p e)
      | _ => if sa then neg_zero else zero
      end
  end.

(** [if (targetAngle < 0) targetAngle += Math.PI * 2]. *)
Definition normalise (targetAngle : float) : float :=
  if targetAngle <? 0 then targetAngle + PI * 2 else targetAngle.

(** The target angle with the hand in the middle of the frame:
    [Math.cos(0)] is 1, [Math.sin(0)] is 0, and [Math.atan2(1, 0)] is the
    double nearest to a quarter turn, [Math.PI / 2]. *)
Definition targetAtCentre : float := normalise (PI / 2).

Definition angleStep (n : nat) : float := (PI * 2) / max 1 (ofNat n).

(** The body of the loop up to the comparison. *)
Definition slotDiff (targetAngle step : float) (i : nat) : float :=
  let pTheta := ofNat i * step in
  let pTheta := rem pTheta (PI * 2) in
  let diff := abs (targetAngle - pTheta) in
  if PI <? diff then (PI * 2) - diff else diff.

Definition selectStep (targetAngle step : float) (acc : Z * float) (i : nat)
  : Z * float :=
  let '(closestIndex, minDiff) := acc in
  let diff := slotDiff targetAngle step i in
  if diff <? minDiff then (Z.of_nat i, diff) else (closestIndex, minDiff).

(** The loop, from [closestIndex = -1] and [minDiff = Infinity]. *)
Definition selectLoop (targetAngle : float) (n : nat) : Z * float :=
  fold_left (selectStep targetAngle (angleStep n)) (seq 0 n)
    ((-1)%Z, infinity).

Definition closestIndex (targetAngle : float) (photos : list string) : Z :=
  fst (selectLoop targetAngle (List.length photos)).




End Double.

(** ** App.tsx: what the render derives from the state *)

Module AppView.

Local Open Scope R_scope.

(** The [handRotation] state after [handleGestureUpdate]: it is set when
    gestures are in use and a rotation came with the label. *)
Definition handRotationAfter (appState : AppState)
  (rotation : option Rotation) (handRotation : Rotation) : Rotation :=
  if negb (useGestures appState) then handRotation
  else match rotation with
       | Some r => r
       | None => handRotation
       end.

(** The [isGestureActive] prop handed to [Scene]. *)
Definition isGestureActive (appState : AppState) : bool :=
  useGestures appState && negb (String.eqb (currentGesture appState) "None").

(** [pseudoRandom]. *)
Definition pseudoRandom (seed : R) : R :=
  Js.rem (seed * 9301 + 49297) 233280 / 233280.

End AppView.

(** ** HandTracker.tsx: the inference loop *)

Module Inference.

Import HandTracker.

(** The refs of the classifier together with [lastInferenceTime]. *)
Record LoopRefs : Type := mkLoopRefs {
  refs : Refs;
  lastInferenceTime : Z
}.

(** What one run of [loop] reads from the page: whether the video and the
    canvas are mounted, the video's ready state and size, whether a drawing
    context was obtained, and the clock. *)
Record Frame : Type := mkFrame {
  hasVideo : bool;
  hasCanvas : bool;
  readyState : Z;
  hasContext : bool;
  videoWidth : Z;
  videoHeight : Z;
  now : Z
}.

Definition setProcessing (b : bool) (r : Refs) : Refs :=
  {| active := active r;
     lastLandmarks := lastLandmarks r;
     isProcessing := b;
     lastHandPos := lastHandPos r;
     lastAnalysisTime := lastAnalysisTime r |}.

Definition setActive (b : bool) (r : Refs) : Refs :=
  {| active := b;
     lastLandmarks := lastLandmarks r;
     isProcessing := isProcessing r;
     lastHandPos := lastHandPos r;
     lastAnalysisTime := lastAnalysisTime r |}.

(** [s.includes(sub)]. *)
Definition includes (s sub : string) : bool :=
  match String.index 0 sub s with
  | Some _ => true
  | None => false
  end.

(** One run of [loop]: the new refs and whether a frame was sent to the
    detector.  Drawing leaves the refs alone. *)
Definition loop (f : Frame) (s : LoopRefs) : LoopRefs * bool :=
  if negb (active (refs s)) then (s, false)
  else if hasVideo f && hasCanvas f && (2 <=? readyState f)%Z then
    if hasContext f then
      let timeSinceLast := (now f - lastInferenceTime s)%Z in
      if (66 <? timeSinceLast)%Z && negb (isProcessing (refs s))
         && (0 <? videoWidth f)%Z && (0 <? videoHeight f)%Z
      then ({| refs := setProcessing true (refs s);
               lastInferenceTime := now f |}, true)
      else (s, false)
    else (s, false)
  else (s, false).

(** The handler of a rejected [send]; [e] is [e.toString()]. *)
Definition onSendError (e : string) (s : LoopRefs) : LoopRefs :=
  let r := setProcessing false (refs s) in
  if includes e "memory" || includes e "Aborted"
  then {| refs := setActive false r;
          lastInferenceTime := lastInferenceTime s |}
  else {| refs := r; lastInferenceTime := lastInferenceTime s |}.

(** What happens to the tracker: an animation frame, a detector result, a
    rejected send. *)
Inductive Event : Type :=
| Tick (f : Frame)
| Result (r : Results) (time : Z)
| SendError (e : string).

(** What an event lets out: the time of a frame sent to the detector, a
    call of [onGestureUpdate]. *)
Record Output : Type := mkOutput {
  sentAt : option Z;
  emitted : option Emission
}.

Definition step (s : LoopRefs) (ev : Event) : LoopRefs * Output :=
  match ev with
  | Tick f =>
      let '(s', sent) := loop f s in
      (s', mkOutput (if sent then Some (now f) else None) None)
  | Result r time =>
      let '(r', e) := onResults r time (refs s) in
      ({| refs := r'; lastInferenceTime := lastInferenceTime s |},
       mkOutput None (match e with Some (Some em) => Some em | _ => None end))
  | SendError e => (onSendError e s, mkOutput None None)
  end.

Fixpoint run (evs : list Event) (s : LoopRefs) : LoopRefs * list Output :=
  match evs with
  | [] => (s, [])
  | ev :: rest =>
      let '(s1, o) := step s ev in
      let '(s2, os) := run rest s1 in
      (s2, o :: os)
  end.

End Inference.

(** ** Scene.tsx: the per-frame scalars of [TreeParticles] *)

Module Twinkle.

Import Scene.
Local Open Scope R_scope.

(** The tint a particle's colour is copied from. *)
Inductive Tint : Type :=
| colorPrimary
| colorSecondary
| colorTertiary.

(** The floating offset added to the height. *)
Definition hoverY (treeState : TreeState) (p : Particle) (time : R) : R :=
  if TreeState_eqb treeState GATHERED
  then sin (time * (match type p with ribbon => 2 | _ => 0.5 end) + phase p)
       * 0.05
  else 0.

Definition twinkle (treeState : TreeState) (p : Particle) (time : R) : R :=
  if TreeState_eqb treeState GATHERED then
    match type p with
    | ribbon => sin (time * 2 + twinkleOffset p) * 0.3
    | ornament => sin (time * twinkleSpeed p + twinkleOffset p) * 0.5
    | _ => sin (time * 0.5 + twinkleOffset p) * 0.2
    end
  else if isHeart p then sin (time * 2 + twinkleOffset p) * 0.2
  else 0.

Definition stateScale (treeState : TreeState) : R :=
  if TreeState_eqb treeState GATHERED then 1 else 0.7.

(** [finalScale], for [config.size = size]. *)
Definition finalScale (size : R) (treeState : TreeState) (p : Particle)
  (time : R) : R :=
  size * sizeScale p * stateScale treeState
  * (1 + twinkle treeState p time * 0.2).

(** The colour logic: the tint copied and the scalar it is multiplied by,
    for [config.brightness = brightness]. *)
Definition color (brightness : R) (treeState : TreeState) (p : Particle)
  (time : R) : Tint * R :=
  let tw := twinkle treeState p time in
  if TreeState_eqb treeState SCATTERED && isHeart p
  then (colorTertiary, brightness * (1.5 + tw))
  else match type p with
       | ribbon => (colorSecondary, brightness * (1.5 + tw))
       | ornament => (colorTertiary, brightness * (2.0 + tw))
       | core => (colorPrimary, 0.8)
       | structure => (colorPrimary, brightness * (0.8 + tw))
       end.

End Twinkle.

(** ** Scene.tsx: the layout of [PhotoPlane] *)

Module Gallery.

Import Scene.
Local Open Scope R_scope.

Definition treeHeight : R := 15.
Definition baseRadius : R := 7.5.
Definition loopsPerSpiral : R := 4.5.
Definition galleryRadius : R := 14.

(** [t], the place of the photo along the ribbon. *)
Definition t (index totalPhotos : nat) : R :=
  if (1 <? totalPhotos)%nat
  then 0.1 + (INR index / (INR totalPhotos - 1)) * 0.8
  else 0.5.

Definition gatheredPos (index totalPhotos : nat) : Vector3 :=
  let t := t index totalPhotos in
  let h := - treeHeight / 2 + t * treeHeight in
  let radiusRatio := 1 - t in
  let r := radiusRatio * baseRadius + 2.0 in
  let theta := t * loopsPerSpiral * PI * 2 + 0.5 in
  mkVector3 (cos theta * r) h (sin theta * r).

Definition angleStep (totalPhotos : nat) : R :=
  (PI * 2) / Rmax 1 (INR totalPhotos).

Definition galleryTheta (index totalPhotos : nat) : R :=
  INR index * angleStep totalPhotos.

Definition galleryY (index : nat) : R := sin (INR index * 0.5) * 2 + 2.

Definition scatteredPos (index totalPhotos : nat) : Vector3 :=
  mkVector3 (cos (galleryTheta index totalPhotos) * galleryRadius)
            (galleryY index)
            (sin (galleryTheta index totalPhotos) * galleryRadius).

End Gallery.

(** ** Scene.tsx: the camera under gesture control, in [SceneContent] *)

Module Camera.

Import Scene.
Local Open Scope R_scope.

(** The camera position and the [currentRadius] ref. *)
Record Rig : Type := mkRig {
  position : Vector3;
  currentRadius : R
}.

(** [<PerspectiveCamera position={[0, 6, 30]} />] and [useRef(30)]. *)
Definition initialRig : Rig := mkRig (mkVector3 0 6 30) 30.

(** [while (deltaTheta > Math.PI) deltaTheta -= Math.PI * 2], unrolled
    [fuel] times at most. *)
Fixpoint wrapDown (fuel : nat) (deltaTheta : R) : option R :=
  if Js.ltb PI deltaTheta then
    match fuel with
    | O => None
    | S fuel' => wrapDown fuel' (deltaTheta - PI * 2)
    end
  else Some deltaTheta.

(** [while (deltaTheta < -Math.PI) deltaTheta += Math.PI * 2]. *)
Fixpoint wrapUp (fuel : nat) (deltaTheta : R) : option R :=
  if Js.ltb deltaTheta (- PI) then
    match fuel with
    | O => None
    | S fuel' => wrapUp fuel' (deltaTheta + PI * 2)
    end
  else Some deltaTheta.

(** The [useFrame] callback; [None]: a loop was cut off by its fuel. *)
Definition useFrame (fuel : nat) (isGestureActive : bool)
  (handRotation : Rotation) (rig : Rig) : option Rig :=
  let camera := position rig in
  let rig :=
    if negb isGestureActive then
      let dx := vx camera in
      let dz := vz camera in
      mkRig camera (Rmax (sqrt (dx * dx + dz * dz)) 5)
    else rig in
  if isGestureActive then
    let radius := currentRadius rig in
    let targetTheta := rot_x handRotation * 3.0 in
    let currentTheta := Js.atan2 (vx camera) (vz camera) in
    let deltaTheta := targetTheta - currentTheta in
    match wrapDown fuel deltaTheta with
    | None => None
    | Some deltaTheta =>
        match wrapUp fuel deltaTheta with
        | None => None
        | Some deltaTheta =>
            let newTheta := currentTheta + deltaTheta * 0.1 in
            let targetY := (- rot_y handRotation * 15) + 6 in
            Some (mkRig (mkVector3 (sin newTheta * radius)
                                   (vy camera + (targetY - vy camera) * 0.1)
                                   (cos newTheta * radius))
                        radius)
        end
    end
  else Some rig.

End Camera.

(** ** Notions used in the statements *)

(** The rising-edge test of the debouncer: the new label is the target and
    the previously stored one is not. *)
Definition isRisingEdge (previousLabel newLabel target : string) : bool :=
  String.eqb newLabel target && negb (String.eqb previousLabel target).

(** The guard under which the pinch branch assigns the selector's result. *)
Definition pinchSelects (gesture : string) (prev : AppState) : bool :=
  String.eqb gesture "Pinch"
  && negb (String.eqb (currentGesture prev) "Pinch")
  && TreeState_eqb (treeState prev) SCATTERED
  && (0 <? List.length (photos prev))%nat.

(** For a run of gesture callbacks from [st]: at which positions the label
    is a rising edge of Pinch, and at which the selector's result is
    assigned. *)
Definition edgeFlags (gs : list (string * option Rotation)) (st : AppState)
  : list bool :=
  map (fun '(prev, (g, _)) => isRisingEdge (currentGesture prev) g "Pinch")
    (combine (App.gestureTrace gs st) gs).

Definition selectFlags (gs : list (string * option Rotation)) (st : AppState)
  : list bool :=
  map (fun '(prev, (g, _)) => pinchSelects g prev)
    (combine (App.gestureTrace gs st) gs).

(** A focus index is present only in the scattered state. *)
Definition focusInv (st : AppState) : Prop :=
  focusedPhotoIndex st <> None -> treeState st = SCATTERED.

(** The quantities the label is decided from, read off a landmark array. *)
Definition lm (landmarks : list HandTracker.Landmark) (i : nat)
  : HandTracker.Landmark :=
  nth i landmarks (HandTracker.mkLandmark 0 0 0).

Definition fingerOpen (landmarks : list HandTracker.Landmark) (tip joint : nat)
  : bool :=
  Js.ltb (HandTracker.ly (lm landmarks tip)) (HandTracker.ly (lm landmarks joint)).

Definition openFingers (landmarks : list HandTracker.Landmark) : nat :=
  HandTracker.fingersOpenCount
    (fingerOpen landmarks 8 6) (fingerOpen landmarks 12 10)
    (fingerOpen landmarks 16 14) (fingerOpen landmarks 20 18).

Definition pinchDist (landmarks : list HandTracker.Landmark) : R :=
  HandTracker.pinchDistance (lm landmarks 8) (lm landmarks 4).

Definition palmSpeed (refs : HandTracker.Refs)
  (landmarks : list HandTracker.Landmark) (now : Z) : R :=
  HandTracker.handSpeed refs
    (HandTracker.lx (lm landmarks 9)) (HandTracker.ly (lm landmarks 9)) now.

Definition movingFast (refs : HandTracker.Refs)
  (landmarks : list HandTracker.Landmark) (now : Z) : bool :=
  Js.ltb 1 (palmSpeed refs landmarks now).

(** The directional signal of a landmark array. *)
Definition directional (landmarks : list HandTracker.Landmark) : Rotation :=
  mkRotation ((0.5 - HandTracker.lx (lm landmarks 9)) * 2 * 1.5)%R
             ((HandTracker.ly (lm landmarks 9) - 0.5) * 2 * 1.5)%R.

(** A hand at rest: every landmark in the middle of the frame. *)
Definition restingHand : list HandTracker.Landmark :=
  repeat (HandTracker.mkLandmark 0.5 0.5 0) 21.

(** The refs while a hand is being followed: a palm position and the time of
    its analysis are stored. *)
Definition trackingRefs : HandTracker.Refs :=
  {| HandTracker.active := true;
     HandTracker.lastLandmarks := Some [restingHand];
     HandTracker.isProcessing := true;
     HandTracker.lastHandPos := Some (0.5, 0.5)%R;
     HandTracker.lastAnalysisTime := 1000 |}.

(** A scattered gallery of four photos with the last one focused. *)
Definition galleryOfFour : AppState :=
  {| treeState := SCATTERED;
     useGestures := false;
     currentGesture := "None";
     photos := ["p0"; "p1"; "p2"; "p3"]%string;
     bgmUrl := None;
     focusedPhotoIndex := Some 3%Z;
     customText := "" |}.

(** The tree is in one of the two states the controller assigns. *)
Definition twoState (st : AppState) : Prop :=
  treeState st = GATHERED \/ treeState st = SCATTERED.

(** [m] returns, whatever the number of draws made before, a value
    satisfying [P]. *)
Definition yields {A} (m : Scene.Gen A) (P : A -> Prop) : Prop :=
  forall p, exists a p', m p = Some (a, p') /\ P a.

(** What holds of the loop variables once a point was accepted. *)
Definition accepted (v : Scene.HeartVars) : Prop :=
  Scene.done v = true ->
  (Scene.heartValue (Scene.hx v) (Scene.hy v) (Scene.hz v) < 0)%R.

(** The point of the loop variables lies in the bounding cube, as long as
    the random numbers lie in [0, 1). *)
Definition inCube (rng : nat -> R) (v : Scene.HeartVars) : Prop :=
  (forall n, 0 <= rng n < 1)%R ->
  (-1.5 <= Scene.hx v < 1.5)%R /\ (-1.5 <= Scene.hy v < 1.5)%R
  /\ (-1.5 <= Scene.hz v < 1.5)%R.

(** The type the loop body gives index [i], as written there. *)
Definition typeAt (count i : nat) : Scene.ParticleType :=
  if (i <? Scene.coreCount count)%nat then Scene.core
  else if (i mod 30 =? 0)%nat then Scene.ornament
  else if negb (i mod 30 =? 0)%nat && (i mod 6 =? 0)%nat then Scene.ribbon
  else Scene.structure.

(** A scattered gallery of ten photos, no gesture stored. *)
Definition galleryOfTen : AppState :=
  {| treeState := SCATTERED;
     useGestures := true;
     currentGesture := "None";
     photos := ["p0"; "p1"; "p2"; "p3"; "p4"; "p5"; "p6"; "p7"; "p8"; "p9"]%string;
     bgmUrl := None;
     focusedPhotoIndex := None;
     customText := "" |}.

(** The shorter arc between two angles of [0 ... 2 PI]. *)
Definition shorterArc (a b : R) : R :=
  Rmin (Rabs (a - b)) (2 * PI - Rabs (a - b)).

(** The angle of slot [i] among [n] evenly spaced slots. *)
Definition slotAngle (n i : nat) : R := INR i * (2 * PI / INR n).

(** What the loop guarantees of its result [k] for target [t] among [n]
    slots: least difference, and first to reach it. *)
Definition firstLeast (n : nat) (t : R) (k : nat) : Prop :=
  (k < n)%nat
  /\ (forall j, (j < n)%nat ->
        (shorterArc t (slotAngle n k) <= shorterArc t (slotAngle n j))%R)
  /\ (forall j, (j < k)%nat ->
        (shorterArc t (slotAngle n k) < shorterArc t (slotAngle n j))%R).



(** The category the layout gives index [i] among [count] particles. *)
Definition categoryOf (count i : nat) : Scene.ParticleType :=
  if (i <? 15 * count / 100)%nat then Scene.core
  else if (i mod 30 =? 0)%nat then Scene.ornament
  else if (i mod 6 =? 0)%nat then Scene.ribbon
  else Scene.structure.

(** A focus index, when present, points into the photo list. *)
Definition focusValid (st : AppState) : Prop :=
  forall k, focusedPhotoIndex st = Some k ->
            (0 <= k < Z.of_nat (List.length (photos st)))%Z.

(** An event that keeps focus indices meaningful: no removal, and clicks
    only on photos that are there. *)
Definition keepsIndices (st : AppState) (ev : App.Event) : Prop :=
  match ev with
  | App.RemovePhoto _ => False
  | App.PhotoClick i => (0 <= i < Z.of_nat (List.length (photos st)))%Z
  | _ => True
  end.

Fixpoint keepsIndicesAlong (evs : list App.Event) (st : AppState) : Prop :=
  match evs with
  | [] => True
  | ev :: rest => keepsIndices st ev /\ keepsIndicesAlong rest (App.step st ev)
  end.

(** Squared distance of two points in the horizontal plane. *)
Definition horizontalDist2 (a b : Scene.Vector3) : R :=
  ((Scene.vx a - Scene.vx b) ^ 2 + (Scene.vz a - Scene.vz b) ^ 2)%R.

(** Where the camera is steered to on its circle of radius [radius] when
    the hand reports [rotation], at height [height]. *)
Definition cameraTarget (rotation : Rotation) (radius height : R)
  : Scene.Vector3 :=
  Scene.mkVector3 (sin (rot_x rotation * 3) * radius) height
                  (cos (rot_x rotation * 3) * radius).

(** A detector callback followed by the controller's handler for what it
    reports. *)
Definition deliver (app : AppState)
  (e : option (option HandTracker.Emission)) : AppState :=
  match e with
  | Some (Some (g, rotation)) => App.handleGestureUpdate app g rotation app
  | _ => app
  end.

Definition callback (results : HandTracker.Results) (time : Z)
  (st : HandTracker.Refs * AppState) : HandTracker.Refs * AppState :=
  let '(refs', e) := HandTracker.onResults results time (fst st) in
  (refs', deliver (snd st) e).

(** The times of the frames sent to the detector, oldest first. *)
Definition sendTimes (os : list Inference.Output) : list Z :=
  flat_map (fun o => match Inference.sentAt o with
                     | Some time => [time]
                     | None => []
                     end) os.

(** Each time is more than 66 ms after [last] and after its predecessor. *)
Fixpoint spacedFrom (last : Z) (times : list Z) : Prop :=
  match times with
  | [] => True
  | time :: rest => (66 < time - last)%Z /\ spacedFrom time rest
  end.

(** A frame with video, canvas and context ready, read at clock [time]. *)
Definition readyFrame (time : Z) : Inference.Frame :=
  {| Inference.hasVideo := true;
     Inference.hasCanvas := true;
     Inference.readyState := 4;
     Inference.hasContext := true;
     Inference.videoWidth := 640;
     Inference.videoHeight := 480;
     Inference.now := time |}.

(** The loop of a tracker that has just started. *)
Definition idleLoop : Inference.LoopRefs :=
  Inference.mkLoopRefs HandTracker.freshRefs 0.

(** The place a particle of type [ty] may take on the tree: the cone of
    the tree has radius [3.75 - y / 2] at height [y]. *)
Definition gatheredShapeOf (ty : Scene.ParticleType) (v : Scene.Vector3)
  : Prop :=
  let x := Scene.vx v in
  let y := Scene.vy v in
  let z := Scene.vz v in
  (match ty with
   | Scene.core =>
       -7.5 <= y < 7.5 /\ x ^ 2 + z ^ 2 <= (0.4 * (3.75 - y / 2)) ^ 2
   | Scene.ribbon =>
       -7.5 <= y < 7.5 /\ x ^ 2 + z ^ 2 = (3.75 - y / 2 + 0.1) ^ 2
   | Scene.ornament =>
       -7.5 <= y < 7.5 /\ x ^ 2 + z ^ 2 = (3.75 - y / 2 + 0.4) ^ 2
   | Scene.structure =>
       -8.1 <= y < 8.1 /\ 0.04 <= x ^ 2 + z ^ 2 <= 70.56
   end)%R.

(** Where a particle may scatter to: the box of the heart for a heart
    member, the wide shell around it otherwise. *)
Definition scatteredShapeOf (isHeart : bool) (v : Scene.Vector3) : Prop :=
  let x := Scene.vx v in
  let y := Scene.vy v in
  let z := Scene.vz v in
  (if isHeart
   then -1.8 <= x < 1.8 /\ -5.3 <= y < -1.7 /\ -1.8 <= z < 1.8
   else 64 <= x ^ 2 + z ^ 2 < 2500 /\ -10 <= y < 20)%R.

(** The ranges of the animation parameters of a particle. *)
Definition animationRanges (q : Scene.Particle) : Prop :=
  (0.05 <= Scene.lerpSpeed q < 0.15
   /\ 0 <= Scene.phase q < 2 * PI
   /\ 1 <= Scene.twinkleSpeed q < 6
   /\ 0 <= Scene.twinkleOffset q < 2 * PI
   /\ 0.3 <= Scene.sizeScale q <= 3.75
   /\ Scene.brightness q
      = match Scene.type q with
        | Scene.core => 0.4
        | Scene.ribbon => 1.5
        | Scene.ornament => 2.0
        | Scene.structure => 0.7
        end)%R.

Definition wellShaped (q : Scene.Particle) : Prop :=
  gatheredShapeOf (Scene.type q) (Scene.gatheredPos q)
  /\ scatteredShapeOf (Scene.isHeart q) (Scene.scatteredPos q)
  /\ animationRanges q.

(** What a stopped tracker keeps: the flag down, and the memory of the
    classifier and of the last send as they are. *)
Definition stoppedLike (s0 s : Inference.LoopRefs) : Prop :=
  HandTracker.active (Inference.refs s) = false
  /\ HandTracker.lastHandPos (Inference.refs s)
     = HandTracker.lastHandPos (Inference.refs s0)
  /\ HandTracker.lastAnalysisTime (Inference.refs s)
     = HandTracker.lastAnalysisTime (Inference.refs s0)
  /\ Inference.lastInferenceTime s = Inference.lastInferenceTime s0.

(** The frame a camera under gesture control is given: a tenth of a yaw
    difference [deltaTheta] within half a turn, on the same circle, and a
    tenth of the way to the height asked for. *)
Definition steered (handRotation : Rotation) (rig rig' : Camera.Rig) : Prop :=
  let camera := Camera.position rig in
  let radius := Camera.currentRadius rig in
  let currentTheta := Js.atan2 (Scene.vx camera) (Scene.vz camera) in
  let targetY := (- rot_y handRotation * 15 + 6)%R in
  exists deltaTheta (m : Z),
    (- PI <= deltaTheta <= PI)%R
    /\ deltaTheta
       = (rot_x handRotation * 3 - currentTheta + 2 * PI * IZR m)%R
    /\ rig'
       = Camera.mkRig
           (Scene.mkVector3
              (sin (currentTheta + deltaTheta * 0.1) * radius)%R
              (Scene.vy camera + (targetY - Scene.vy camera) * 0.1)%R
              (cos (currentTheta + deltaTheta * 0.1) * radius)%R)
           radius.

(** A stream of random numbers that are all 0. *)
Definition zeroStream : nat -> R := fun _ => 0%R.

(** A structure particle at the origin, of size scale 1. *)
Definition restingParticle : Scene.Particle :=
  {| Scene.gatheredPos := Scene.mkVector3 0 0 0;
     Scene.scatteredPos := Scene.mkVector3 0 0 0;
     Scene.lerpSpeed := 0.1;
     Scene.phase := 0;
     Scene.sizeScale := 1;
     Scene.brightness := 0.7;
     Scene.type := Scene.structure;
     Scene.twinkleSpeed := 1;
     Scene.twinkleOffset := 0;
     Scene.isHeart := false |}.

(** ** The scene state machine *)

Section StateMachine.

Lemma TreeState_eqb_eq (a b : TreeState) : TreeState_eqb a b = true <-> a = b.
Proof. destruct a, b; simpl; split; congruence. Qed.

(** Once the scan is past the index, nothing more is dropped. *)
Lemma filterIndex_past (arr : list string) :
  forall (index : Z) (i : nat),
    (index < Z.of_nat i)%Z -> App.filterIndex index i arr = arr.
Proof.
  induction arr as [|p rest IH]; intros index i Hlt; simpl; [reflexivity|].
  destruct (Z.eqb_spec (Z.of_nat i) index) as [E|_]; [lia|].
  f_equal. apply IH. lia.
Qed.

(** Dropping index [i + k] when the scan stands at [i] removes the entry
    [k] places ahead. *)
Lemma filterIndex_offset (arr : list string) :
  forall i k,
    App.filterIndex (Z.of_nat (i + k)) i arr
    = (firstn k arr ++ skipn (S k) arr)%list.
Proof.
  induction arr as [|p rest IH]; intros i k; simpl.
  - now destruct k.
  - destruct k as [|k].
    + rewrite Nat.add_0_r, Z.eqb_refl. simpl.
      apply filterIndex_past. lia.
    + destruct (Z.eqb_spec (Z.of_nat i) (Z.of_nat (i + S k))) as [E|_]; [lia|].
      simpl. f_equal.
      replace (i + S k)%nat with (S i + k)%nat by lia. apply IH.
Qed.

(** *** Removing a photo *)

(** C1, as stated, fails: with four photos and the focus on index 3,
    removing photo 3 leaves three photos and the focus still on index 3. *)
Lemma removePhoto_focus_survives :
  focusedPhotoIndex galleryOfFour = Some 3%Z
  /\ photos (App.removePhoto 3 galleryOfFour) = ["p0"; "p1"; "p2"]%string
  /\ focusedPhotoIndex (App.removePhoto 3 galleryOfFour) <> None.
Proof. repeat split; simpl; discriminate. Qed.

(** C1, amended: removing the photo at index [k] deletes that entry, the
    later photos moving down by one, and leaves the focus index and the
    tree state as they were; so a focus on [k] is still [k] afterwards. *)
Theorem removePhoto_keeps_focus (prev : AppState) (k : nat) :
  photos (App.removePhoto (Z.of_nat k) prev)
  = (firstn k (photos prev) ++ skipn (S k) (photos prev))%list
  /\ focusedPhotoIndex (App.removePhoto (Z.of_nat k) prev)
     = focusedPhotoIndex prev
  /\ treeState (App.removePhoto (Z.of_nat k) prev) = treeState prev
  /\ (focusedPhotoIndex prev = Some (Z.of_nat k) ->
      focusedPhotoIndex (App.removePhoto (Z.of_nat k) prev)
      = Some (Z.of_nat k)).
Proof.
  split; [|split; [|split]]; try reflexivity.
  - simpl. apply (filterIndex_offset (photos prev) 0 k).
  - intros H. exact H.
Qed.

(** *** Pinch handling *)

Lemma gestureUpdater_label g r prev :
  currentGesture (App.gestureUpdater g r prev) = g.
Proof.
  unfold App.gestureUpdater.
  repeat match goal with |- context [if ?b then _ else _] => destruct b end;
    reflexivity.
Qed.

Lemma pinch_updater_cases r prev :
  let st' := App.gestureUpdater "Pinch" r prev in
  treeState st' = treeState prev
  /\ (pinchSelects "Pinch" prev = true ->
      focusedPhotoIndex st'
      = Some (App.closestIndex (App.targetAngle (App.currentRotation r))
                (photos prev)))
  /\ (pinchSelects "Pinch" prev = false ->
      focusedPhotoIndex st' = focusedPhotoIndex prev).
Proof.
  unfold App.gestureUpdater, pinchSelects. simpl.
  destruct (negb (currentGesture prev =? "Pinch")%string);
    destruct (TreeState_eqb (treeState prev) SCATTERED);
    destruct (0 <? List.length (photos prev))%nat; simpl;
    repeat split; intros; congruence.
Qed.

Lemma pinchSelects_spec g prev :
  pinchSelects g prev = true <->
  g = "Pinch"%string /\ currentGesture prev <> "Pinch"%string
  /\ treeState prev = SCATTERED /\ photos prev <> [].
Proof.
  unfold pinchSelects.
  rewrite !andb_true_iff, negb_true_iff, String.eqb_eq, String.eqb_neq,
    TreeState_eqb_eq, Nat.ltb_lt.
  destruct (photos prev); simpl; intuition (try congruence; try lia).
Qed.

Lemma pinchSelects_held r st :
  pinchSelects "Pinch" (App.gestureUpdater "Pinch" r st) = false.
Proof.
  unfold pinchSelects. rewrite gestureUpdater_label. reflexivity.
Qed.

Lemma pinchSelects_after_fist r st :
  pinchSelects "Pinch" (App.gestureUpdater "Fist" r st) = false.
Proof.
  unfold pinchSelects. rewrite gestureUpdater_label. reflexivity.
Qed.

(** C3: on a Pinch label the tree state never changes; the focus index is
    assigned the selector's result when the stored label is not Pinch, the
    state is SCATTERED and there is a photo, and is left alone otherwise.
    Along the labels None, Pinch, Pinch, Fist, Pinch the rising edges are
    at positions 1 and 4 exactly, and the selection fires at no position
    other than 1 and 4. *)
Theorem pinch_selects_on_rising_edge :
  (forall r prev,
      let st' := App.gestureUpdater "Pinch" r prev in
      treeState st' = treeState prev
      /\ ((currentGesture prev <> "Pinch"%string
           /\ treeState prev = SCATTERED /\ photos prev <> []) ->
          focusedPhotoIndex st'
          = Some (App.closestIndex (App.targetAngle (App.currentRotation r))
                    (photos prev)))
      /\ (~ (currentGesture prev <> "Pinch"%string
             /\ treeState prev = SCATTERED /\ photos prev <> []) ->
          focusedPhotoIndex st' = focusedPhotoIndex prev))
  /\ (forall st r0 r1 r2 r3 r4,
        let gs := [("None", r0); ("Pinch", r1); ("Pinch", r2); ("Fist", r3);
                   ("Pinch", r4)]%string in
        edgeFlags gs st = [false; true; false; false; true]
        /\ forall i, nth i (selectFlags gs st) false = true ->
                     i = 1%nat \/ i = 4%nat).
Proof.
  split.
  - intros r prev st'.
    destruct (pinch_updater_cases r prev) as (Ht & Hyes & Hno).
    split; [exact Ht|]. split.
    + intros H. apply Hyes. apply pinchSelects_spec. tauto.
    + intros H. apply Hno.
      destruct (pinchSelects "Pinch" prev) eqn:E; [|reflexivity].
      apply pinchSelects_spec in E. tauto.
  - intros st r0 r1 r2 r3 r4 gs. split.
    + unfold edgeFlags, gs. cbn [App.gestureTrace combine map].
      unfold isRisingEdge. rewrite !gestureUpdater_label. reflexivity.
    + unfold selectFlags, gs. cbn [App.gestureTrace combine map].
      rewrite pinchSelects_held, pinchSelects_after_fist.
      intros [|[|[|[|[|i]]]]]; cbn [nth]; intros H;
        try discriminate H; auto.
      destruct i; discriminate H.
Qed.

(** After the Fist at position 3 the tree is gathered, so the rising edge at
    position 4 selects nothing. *)
Lemma pinch_after_fist_is_gated st r3 r4 :
  let st3 := App.gestureUpdater "Fist" r3 st in
  let st4 := App.gestureUpdater "Pinch" r4 st3 in
  isRisingEdge (currentGesture st3) "Pinch" "Pinch" = true
  /\ treeState st4 = GATHERED /\ focusedPhotoIndex st4 = None.
Proof.
  repeat split.
Qed.

(** *** The focus invariant *)

Lemma gestureUpdater_focusInv g r st :
  focusInv st -> focusInv (App.gestureUpdater g r st).
Proof.
  unfold focusInv, App.gestureUpdater. intros H.
  destruct (g =? "Fist")%string; [simpl; congruence|].
  destruct (g =? "Open")%string; [simpl; congruence|].
  destruct (g =? "Pinch")%string; [|exact H].
  destruct (negb (currentGesture st =? "Pinch")%string); [|exact H].
  destruct (TreeState_eqb (treeState st) SCATTERED) eqn:E; [|exact H].
  apply TreeState_eqb_eq in E. simpl.
  destruct (0 <? List.length (photos st))%nat; simpl; auto.
Qed.

Lemma gestureUpdater_into_gathered g r st :
  treeState st <> GATHERED ->
  treeState (App.gestureUpdater g r st) = GATHERED ->
  focusedPhotoIndex (App.gestureUpdater g r st) = None.
Proof.
  unfold App.gestureUpdater. intros Hne.
  destruct (g =? "Fist")%string; [reflexivity|].
  destruct (g =? "Open")%string; [reflexivity|].
  destruct (g =? "Pinch")%string; simpl; [|congruence].
  destruct (negb (currentGesture st =? "Pinch")%string); simpl; [|congruence].
  destruct (TreeState_eqb (treeState st) SCATTERED); simpl; [|congruence].
  destruct (0 <? List.length (photos st))%nat; simpl; congruence.
Qed.

Lemma handlePhotoClick_focusInv st i :
  focusInv st -> focusInv (App.handlePhotoClick st i st).
Proof.
  unfold focusInv, App.handlePhotoClick. intros H.
  destruct (negb (useGestures st)); simpl; [|exact H].
  destruct (TreeState_eqb (treeState st) SCATTERED) eqn:E; [|exact H].
  apply TreeState_eqb_eq in E. simpl. auto.
Qed.

(** C5: if the focus index is present only in the SCATTERED state, the same
    holds after the gesture updater for any label, after the manual toggle,
    after a photo click and after any other event of the controller; and an
    operation that takes the tree from another state to GATHERED leaves no
    focus index. *)
Theorem focus_only_while_scattered (st : AppState) (H : focusInv st) :
  (forall g r, focusInv (App.gestureUpdater g r st))
  /\ focusInv (App.toggleTreeState st)
  /\ (forall i, focusInv (App.handlePhotoClick st i st))
  /\ (forall ev, focusInv (App.step st ev))
  /\ (forall g r,
        treeState st <> GATHERED ->
        treeState (App.gestureUpdater g r st) = GATHERED ->
        focusedPhotoIndex (App.gestureUpdater g r st) = None)
  /\ (forall ev,
        treeState st <> GATHERED ->
        treeState (App.step st ev) = GATHERED ->
        focusedPhotoIndex (App.step st ev) = None).
Proof.
  split; [intros; now apply gestureUpdater_focusInv|].
  split; [intros F; simpl in F; congruence|].
  split; [intros; now apply handlePhotoClick_focusInv|].
  split.
  - intros [g r|url|i| |url|t| |i]; simpl; try exact H.
    + unfold App.handleGestureUpdate.
      destruct (negb (useGestures st)); [exact H|].
      now apply gestureUpdater_focusInv.
    + intros F; simpl in F; congruence.
    + now apply handlePhotoClick_focusInv.
  - split; [intros; now apply gestureUpdater_into_gathered|].
    intros [g r|url|i| |url|t| |i]; simpl; intros Hne Hg; try congruence.
    + unfold App.handleGestureUpdate in *.
      destruct (negb (useGestures st)); [congruence|].
      now apply gestureUpdater_into_gathered.
    + unfold App.handlePhotoClick in *.
      destruct (negb (useGestures st) && TreeState_eqb (treeState st) SCATTERED);
        simpl in *; congruence.
Qed.

Lemma focus_only_while_scattered_witness :
  focusInv App.initialState
  /\ focusInv (App.step App.initialState App.ToggleTreeState).
Proof.
  assert (H : focusInv App.initialState)
    by (intros F; simpl in F; congruence).
  split; [exact H|].
  apply (focus_only_while_scattered App.initialState H).
Defined.

(** *** Reachable tree states *)

Lemma gestureUpdater_twoState g r st :
  twoState st -> twoState (App.gestureUpdater g r st).
Proof.
  unfold twoState, App.gestureUpdater. intros H.
  destruct (g =? "Fist")%string; [now left|].
  destruct (g =? "Open")%string; [now right|].
  repeat match goal with |- context [if ?b then _ else _] => destruct b end;
    exact H.
Qed.

Lemma step_twoState st ev : twoState st -> twoState (App.step st ev).
Proof.
  intros H. destruct ev; simpl; try exact H.
  - unfold App.handleGestureUpdate.
    destruct (negb (useGestures st)); [exact H|].
    now apply gestureUpdater_twoState.
  - unfold twoState. simpl.
    destruct (TreeState_eqb (treeState st) GATHERED); auto.
  - unfold App.handlePhotoClick.
    destruct (negb (useGestures st) && TreeState_eqb (treeState st) SCATTERED);
      exact H.
Qed.

(** C10: whatever events reach the controller, from the initial state the
    tree state is GATHERED or SCATTERED; FOCUS is never entered. *)
Theorem focus_state_unreachable (evs : list App.Event) :
  treeState (App.run evs App.initialState) = GATHERED
  \/ treeState (App.run evs App.initialState) = SCATTERED.
Proof.
  unfold App.run.
  assert (G : forall st, twoState st -> twoState (fold_left App.step evs st)).
  { induction evs as [|ev evs IH]; intros st Hst; simpl; [exact Hst|].
    apply IH. now apply step_twoState. }
  apply G. now left.
Qed.

End StateMachine.

(** ** The gesture classifier *)

Section Classifier.

Import HandTracker.
Local Open Scope R_scope.

Lemma ltb_true a b : Js.ltb a b = true <-> a < b.
Proof. unfold Js.ltb. destruct (Rlt_dec a b); split; intros; congruence || tauto. Qed.

Lemma ltb_false a b : Js.ltb a b = false <-> b <= a.
Proof.
  unfold Js.ltb. destruct (Rlt_dec a b); split; intros; try congruence; lra.
Qed.

(** A sample of 21 landmarks is classified without a throw; the refs keep
    the palm position and the time of the sample. *)
Lemma analyzeGesture_sample (refs : Refs) (landmarks : list Landmark) (now : Z) :
  List.length landmarks = 21%nat ->
  analyzeGesture landmarks now refs
  = ({| active := active refs;
        lastLandmarks := lastLandmarks refs;
        isProcessing := isProcessing refs;
        lastHandPos := Some (lx (lm landmarks 9), ly (lm landmarks 9));
        lastAnalysisTime := now |},
     Some (gestureOf (pinchDist landmarks) (movingFast refs landmarks now)
             (openFingers landmarks),
           Some (directional landmarks))).
Proof.
  intros Hlen.
  do 21 (destruct landmarks as [|? landmarks]; [discriminate Hlen|]).
  destruct landmarks; [|discriminate Hlen].
  reflexivity.
Qed.

Lemma gestureOf_pinch d fast n :
  d < 0.06 -> fast = false -> gestureOf d fast n = "Pinch"%string.
Proof.
  intros Hd ->. unfold gestureOf.
  now rewrite (proj2 (ltb_true d 0.06) Hd).
Qed.




(** *** Losing the hand *)

(** C9, as stated, fails: the callback without a hand clears the last palm
    position but keeps the time of the last analysis. *)
Lemma no_hand_keeps_timestamp :
  let refs' := fst (onResults (mkResults None) 2000 trackingRefs) in
  active trackingRefs = true
  /\ lastHandPos refs' = None
  /\ lastAnalysisTime refs' = 1000%Z
  /\ ~ (lastHandPos refs' = None /\ lastAnalysisTime refs' = 0%Z).
Proof.
  simpl. repeat split. intros [_ H]. discriminate H.
Qed.

Lemma handSpeed_without_position refs x y now :
  lastHandPos refs = None -> handSpeed refs x y now = 0.
Proof. unfold handSpeed. now intros ->. Qed.

(** C9, amended: on a running tracker a callback without a hand (no
    landmark list, or an empty one) throws nothing, reports the label None
    without a rotation, clears the last palm position and keeps the time of
    the last analysis.  The next sample of 21 landmarks then has speed 0,
    is not moving fast, and is labelled without the velocity gate.  The
    controller takes the report as an ordinary label: tree state and focus
    index stay. *)
Theorem no_hand_resets_position (refs : Refs) (results : Results) (now : Z)
  (Hactive : active refs = true)
  (Hnone : multiHandLandmarks results = None
           \/ multiHandLandmarks results = Some []) :
  exists refs',
    onResults results now refs = (refs', Some (Some ("None"%string, None)))
    /\ lastHandPos refs' = None
    /\ lastAnalysisTime refs' = lastAnalysisTime refs
    /\ isProcessing refs' = false
    /\ (forall landmarks now',
          List.length landmarks = 21%nat ->
          palmSpeed refs' landmarks now' = 0
          /\ movingFast refs' landmarks now' = false
          /\ exists refs'',
              analyzeGesture landmarks now' refs'
              = (refs'',
                 Some (gestureOf (pinchDist landmarks) false
                         (openFingers landmarks),
                       Some (directional landmarks))))
    /\ (forall appState prev,
          let st' := App.handleGestureUpdate appState "None" None prev in
          treeState st' = treeState prev
          /\ focusedPhotoIndex st' = focusedPhotoIndex prev).
Proof.
  eexists. split.
  - unfold onResults, bind, get. simpl. rewrite Hactive. simpl.
    destruct Hnone as [-> | ->]; reflexivity.
  - simpl. split; [reflexivity|]. split; [reflexivity|].
    split; [reflexivity|]. split.
    + intros landmarks now' Hlen.
      assert (Hs : forall r, lastHandPos r = None ->
                             palmSpeed r landmarks now' = 0)
        by (intros r Hr; unfold palmSpeed;
            now apply handSpeed_without_position).
      assert (Hf : forall r, lastHandPos r = None ->
                             movingFast r landmarks now' = false)
        by (intros r Hr; unfold movingFast; rewrite (Hs r Hr);
            apply ltb_false; lra).
      split; [now apply Hs|]. split; [now apply Hf|].
      eexists. rewrite analyzeGesture_sample by assumption.
      rewrite Hf by reflexivity. reflexivity.
    + intros appState prev. unfold App.handleGestureUpdate.
      destruct (negb (useGestures appState)); split; reflexivity.
Qed.

Lemma no_hand_resets_position_witness :
  exists refs',
    onResults (mkResults None) 2000 trackingRefs
    = (refs', Some (Some ("None"%string, None)))
    /\ lastHandPos refs' = None
    /\ lastAnalysisTime refs' = lastAnalysisTime trackingRefs.
Proof.
  destruct (no_hand_resets_position trackingRefs (mkResults None) 2000
              eq_refl (or_introl eq_refl))
    as (refs' & Hrun & Hpos & Htime & _).
  exists refs'. repeat split; assumption.
Defined.

End Classifier.

(** ** The particle generator *)

Section Particles.

Import Scene.
Local Open Scope R_scope.

Variable rng : nat -> R.

Lemma yields_ret {A} (a : A) (P : A -> Prop) : P a -> yields (ret a) P.
Proof. intros H p. exists a, p. now split. Qed.

Lemma yields_bind {A B} (m : Gen A) (k : A -> Gen B) (Q : A -> Prop)
  (P : B -> Prop) :
  yields m Q -> (forall a, Q a -> yields (k a) P) -> yields (bind m k) P.
Proof.
  intros Hm Hk p. destruct (Hm p) as (a & p1 & E & Ha).
  destruct (Hk a Ha p1) as (b & p2 & E' & Hb).
  exists b, p2. unfold bind. rewrite E. now split.
Qed.

Lemma yields_random : yields (random rng) (fun _ => True).
Proof. intros p. exists (rng p), (S p). now split. Qed.

Lemma yields_weaken {A} (m : Gen A) (P Q : A -> Prop) :
  yields m P -> (forall a, P a -> Q a) -> yields m Q.
Proof.
  intros H HPQ p. destruct (H p) as (a & p' & E & Ha).
  exists a, p'. split; auto.
Qed.

(** The loop stops within its fuel as soon as the fuel covers the rounds
    its guard still allows. *)
Lemma heartLoop_stops :
  forall fuel v p,
    (100 - attempts v <= fuel)%nat ->
    accepted v /\ inCube rng v ->
    exists v' p',
      heartLoop rng fuel v p = Some (v', p')
      /\ (accepted v' /\ inCube rng v')
      /\ (attempts v <= attempts v')%nat
      /\ (attempts v <= 100 -> attempts v' <= 100)%nat
      /\ p' = (p + 3 * (attempts v' - attempts v))%nat
      /\ (done v' = false -> 100 <= attempts v')%nat.
Proof.
  induction fuel as [|fuel IH]; intros v p Hfuel Hacc.
  - assert (G : negb (done v) && (attempts v <? 100)%nat = false).
    { apply andb_false_iff. right. apply Nat.ltb_ge. lia. }
    simpl. rewrite G. exists v, p. unfold ret.
    split; [reflexivity|]. split; [exact Hacc|].
    repeat split; intros; lia.
  - simpl.
    destruct (negb (done v) && (attempts v <? 100)%nat) eqn:G.
    + apply andb_true_iff in G. destruct G as [Hd Ha].
      apply negb_true_iff in Hd. apply Nat.ltb_lt in Ha.
      unfold bind, random.
      set (hx' := rng p * 3 - 1.5).
      set (hy' := rng (S p) * 3 - 1.5).
      set (hz' := rng (S (S p)) * 3 - 1.5).
      set (v1 := mkHeartVars _ _ _ _ _).
      destruct (IH v1 (S (S (S p)))) as (v' & p' & E & Hacc' & Hle & Hb & Hp & Hx).
      * subst v1; cbn [attempts]. lia.
      * subst v1. split.
        -- unfold accepted. simpl. rewrite Hd.
           unfold Js.ltb. destruct (Rlt_dec (heartValue hx' hy' hz') 0);
             [auto|discriminate].
        -- intros Hr. simpl. subst hx' hy' hz'.
           pose proof (Hr p). pose proof (Hr (S p)). pose proof (Hr (S (S p))).
           repeat split; lra.
      * exists v', p'. split; [exact E|]. split; [exact Hacc'|].
        subst v1; cbn [attempts] in *. repeat split; intros; auto; lia.
    + exists v, p. unfold ret.
      split; [reflexivity|]. split; [exact Hacc|].
      repeat split; intros; try lia.
      match goal with H : done v = false |- _ => rewrite H in G end.
      simpl in G. apply Nat.ltb_ge in G. lia.
Qed.

(** [Math.floor(count * 0.15)] is the integer quotient of [15 * count] by
    100. *)
Lemma coreCount_quotient (count : nat) :
  coreCount count = (15 * count / 100)%nat.
Proof.
  unfold coreCount, Js.floor.
  set (q := (15 * count / 100)%nat).
  assert (H : (100 * Z.of_nat q <= 15 * Z.of_nat count
               < 100 * Z.of_nat q + 100)%Z).
  { pose proof (Nat.div_mod_eq (15 * count) 100) as E.
    pose proof (Nat.mod_upper_bound (15 * count) 100) as B.
    fold q in E. lia. }
  destruct H as [Hlo Hhi].
  apply IZR_le in Hlo. apply IZR_lt in Hhi.
  rewrite !mult_IZR in Hlo. rewrite plus_IZR, !mult_IZR in Hhi.
  rewrite <- (Int_part_spec (INR count * 0.15) (Z.of_nat q)).
  - apply Nat2Z.id.
  - rewrite <- !INR_IZR_INZ in *. lra.
Qed.

Lemma typeAt_categoryOf count i : typeAt count i = categoryOf count i.
Proof.
  unfold typeAt, categoryOf. rewrite coreCount_quotient.
  destruct (i <? 15 * count / 100)%nat; [reflexivity|].
  destruct (i mod 30 =? 0)%nat; reflexivity.
Qed.

Lemma coreBranch_type :
  yields (coreBranch rng) (fun g => snd g = core).
Proof.
  unfold coreBranch.
  do 4 (eapply yields_bind; [apply yields_random|intros ? _]).
  now apply yields_ret.
Qed.

Lemma spiralBranch_type i :
  yields (spiralBranch rng i)
    (fun g => snd g = if (i mod 30 =? 0)%nat then ornament
                      else if negb (i mod 30 =? 0)%nat && (i mod 6 =? 0)%nat
                           then ribbon else structure).
Proof.
  unfold spiralBranch.
  eapply yields_bind; [apply yields_random|intros tBase _].
  destruct (i mod 30 =? 0)%nat; cbn [negb andb].
  - eapply yields_bind; [apply yields_random|intros ? _].
    now apply yields_ret.
  - destruct (i mod 6 =? 0)%nat.
    + now apply yields_ret.
    + do 4 (eapply yields_bind; [apply yields_random|intros ? _]).
      now apply yields_ret.
Qed.

(** The search for a heart point returns after at most 100 rounds of three
    draws each. *)
Lemma heartSearch_stops (p : nat) :
  exists v p',
    heartSearch rng p = Some (v, p')
    /\ (accepted v /\ inCube rng v)
    /\ (attempts v <= 100)%nat
    /\ p' = (p + 3 * attempts v)%nat
    /\ (done v = false -> attempts v = 100%nat).
Proof.
  destruct (heartLoop_stops 100 (mkHeartVars false 0 0 0 0) p)
    as (v & p' & E & Hacc & _ & Hb & Hp & Hx).
  - simpl. lia.
  - split; [intros H; discriminate H|].
    intros _. simpl. repeat split; lra.
  - exists v, p'. cbn [attempts] in *.
    split; [exact E|]. split; [exact Hacc|].
    split; [apply Hb; lia|]. split; [lia|].
    intros Hd. specialize (Hx Hd). specialize (Hb (Nat.le_0_l 100)). lia.
Qed.

Lemma heartFallback_point v :
  accepted v /\ inCube rng v ->
  let w := heartFallback v in
  (heartValue (hx w) (hy w) (hz w) < 0
   \/ (hx w = 0 /\ hy w = 0 /\ hz w = 0))
  /\ inCube rng w.
Proof.
  unfold accepted, heartFallback. intros [H C].
  destruct (done v); simpl; split; auto.
  intros _. simpl. repeat split; lra.
Qed.

Lemma scatter_returns b sz : yields (scatter rng b sz) (fun _ => True).
Proof.
  unfold scatter. destruct b.
  - eapply yields_bind with (Q := fun _ => True).
    + intros p. destruct (heartSearch_stops p) as (v & p' & E & _).
      now exists v, p'.
    + intros v _. now apply yields_ret.
  - do 3 (eapply yields_bind; [apply yields_random|intros ? _]).
    now apply yields_ret.
Qed.

Lemma particle_type count i :
  yields (particle rng count i) (fun q => type q = typeAt count i).
Proof.
  unfold particle.
  do 2 (eapply yields_bind; [apply yields_random|intros ? _]).
  eapply yields_bind with (Q := fun g => snd g = typeAt count i).
  - unfold typeAt. destruct (i <? coreCount count)%nat.
    + apply coreBranch_type.
    + apply spiralBranch_type.
  - intros [[[gp sz] br] ty] Hty. simpl in Hty.
    eapply yields_bind; [apply yields_random|intros ? _].
    eapply yields_bind; [apply scatter_returns|intros [sp sz'] _].
    do 2 (eapply yields_bind; [apply yields_random|intros ? _]).
    now apply yields_ret.
Qed.

Lemma particlesFrom_types count :
  forall todo i temp p,
    exists ps p',
      particlesFrom rng count todo i temp p = Some (ps, p')
      /\ map type ps
         = (map type temp ++ map (typeAt count) (seq i todo))%list.
Proof.
  induction todo as [|todo IH]; intros i temp p; simpl.
  - exists temp, p. unfold ret. now rewrite app_nil_r.
  - destruct (particle_type count i p) as (q & p1 & E & Hq).
    destruct (IH (S i) (temp ++ [q])%list p1) as (ps & p2 & E' & Hps).
    exists ps, p2. unfold bind. rewrite E. split; [exact E'|].
    rewrite Hps, map_app, <- app_assoc. simpl. now rewrite Hq.
Qed.

(** C8: the search for a heart point always returns, after at most 100
    rounds of three draws; the point that is then scaled either satisfies
    the heart inequality or is the origin, and lies in the bounding cube
    when the random numbers lie in [0, 1).  The scattered position of a
    heart member is that point scaled and shifted, and the generator returns
    a list of [count] particles for every [count]. *)
Theorem heart_sampler_total (p : nat) (sz : R) :
  (exists v p',
      heartSearch rng p = Some (v, p')
      /\ (attempts v <= 100)%nat
      /\ p' = (p + 3 * attempts v)%nat
      /\ let w := heartFallback v in
         (heartValue (hx w) (hy w) (hz w) < 0
          \/ (hx w = 0 /\ hy w = 0 /\ hz w = 0))
         /\ inCube rng w
         /\ exists p'',
             scatter rng true sz p
             = Some ((mkVector3 (hx w * 1.2) (hy w * 1.2 - 3.5) (hz w * 1.2),
                      sz), p''))
  /\ (forall count,
        exists ps p',
          particles rng count p = Some (ps, p') /\ List.length ps = count).
Proof.
  split.
  - destruct (heartSearch_stops p) as (v & p' & E & Hinv & Hb & Hp & _).
    exists v, p'. split; [exact E|]. split; [exact Hb|]. split; [exact Hp|].
    destruct (heartFallback_point v Hinv) as [Hpt Hcube].
    split; [exact Hpt|]. split; [exact Hcube|].
    exists p'. unfold scatter, bind. rewrite E. reflexivity.
  - intros count.
    destruct (particlesFrom_types count count 0 [] p) as (ps & p' & E & Hty).
    exists ps, p'. split; [exact E|].
    apply (f_equal (@List.length _)) in Hty.
    simpl in Hty. now rewrite !length_map, length_seq in Hty.
Qed.

Lemma particles_types (count p : nat) :
  exists ps p',
    particles rng count p = Some (ps, p')
    /\ map type ps = map (categoryOf count) (seq 0 count).
Proof.
  destruct (particlesFrom_types count count 0 [] p) as (ps & p' & E & Hty).
  exists ps, p'. split; [exact E|].
  rewrite Hty. simpl. apply map_ext. intros i. apply typeAt_categoryOf.
Qed.

End Particles.

(** C7: the categories of the generated particles are a function of the
    index alone: the particle of index [i] is core when [i] is below the
    floor of [0.15 * count], which is the quotient of [15 * count] by 100;
    otherwise ornament when [i] is a multiple of 30, else ribbon when [i]
    is a multiple of 6, else structure.  Two runs of the generator for the
    same [count], whatever random numbers they draw, give the same
    categories. *)
Theorem category_by_index (rng rng' : nat -> R) (count p p' : nat) :
  Scene.coreCount count = (15 * count / 100)%nat
  /\ exists ps q ps' q',
      Scene.particles rng count p = Some (ps, q)
      /\ Scene.particles rng' count p' = Some (ps', q')
      /\ map Scene.type ps = map (categoryOf count) (seq 0 count)
      /\ map Scene.type ps' = map Scene.type ps.
Proof.
  split; [apply coreCount_quotient|].
  destruct (particles_types rng count p) as (ps & q & E & Hty).
  destruct (particles_types rng' count p') as (ps' & q' & E' & Hty').
  exists ps, q, ps', q'. repeat split; try assumption. congruence.
Qed.

(** ** Doubles and their order *)

Section Doubles.

Import SpecFloat.









End Doubles.

(** ** The angular selector *)

Section Selector.

Local Open Scope R_scope.

Lemma rem_small x y : 0 < y -> 0 <= x < y -> Js.rem x y = x.
Proof.
  intros Hy [Hx0 Hxy]. unfold Js.rem, Js.trunc.
  assert (E : x / y * y = x) by (field; lra).
  assert (H0 : 0 <= x / y).
  { unfold Rdiv. apply Rmult_le_pos; [exact Hx0|].
    left. now apply Rinv_0_lt_compat. }
  assert (H1 : x / y < 1).
  { destruct (Rlt_dec (x / y) 1) as [L|L]; [exact L|].
    exfalso. assert (y <= x / y * y) by nra. lra. }
  destruct (Rle_dec 0 (x / y)) as [_|N]; [|contradiction].
  rewrite <- (Int_part_spec (x / y) 0); simpl; lra.
Qed.

(** The difference the loop computes is the shorter arc. *)
Lemma slotDiff_arc t s i :
  0 <= INR i * s < 2 * PI ->
  App.slotDiff t s i = shorterArc t (INR i * s).
Proof.
  intros H. unfold App.slotDiff.
  rewrite rem_small by (pose proof PI_RGT_0; lra).
  unfold shorterArc, Js.ltb, Rmin.
  destruct (Rlt_dec PI (Rabs (t - INR i * s)));
    destruct (Rle_dec _ _); lra.
Qed.

(** The loop keeps the first index of least difference. *)
Lemma selectLoop_first_least t s :
  forall n, (0 < n)%nat ->
    exists k,
      fold_left (App.selectStep t s) (seq 0 n) ((-1)%Z, Js.Infinity)
      = (Z.of_nat k, Js.Finite (App.slotDiff t s k))
      /\ (k < n)%nat
      /\ (forall j, (j < n)%nat -> App.slotDiff t s k <= App.slotDiff t s j)
      /\ (forall j, (j < k)%nat -> App.slotDiff t s k < App.slotDiff t s j).
Proof.
  induction n as [|m IH]; intros Hn; [lia|].
  rewrite seq_S, fold_left_app. simpl.
  destruct m as [|m].
  - simpl. exists 0%nat. repeat split; try lia.
    intros j Hj. replace j with 0%nat by lia. lra.
  - destruct IH as (k & E & Hk & Hmin & Hfirst); [lia|].
    rewrite E. unfold App.selectStep, Js.lt_num, Js.ltb.
    destruct (Rlt_dec (App.slotDiff t s (S m)) (App.slotDiff t s k)) as [L|L].
    + exists (S m). repeat split; try lia.
      * intros j Hj. destruct (Nat.eq_dec j (S m)) as [->|Hne]; [lra|].
        specialize (Hmin j ltac:(lia)). lra.
      * intros j Hj. specialize (Hmin j Hj). lra.
    + exists k. repeat split; try lia.
      * intros j Hj. destruct (Nat.eq_dec j (S m)) as [->|Hne]; [lra|].
        apply Hmin. lia.
      * exact Hfirst.
Qed.

Ltac arc_cases :=
  unfold shorterArc, Rmin, Rabs in *;
  repeat match goal with
         | |- context [Rle_dec ?a ?b] => destruct (Rle_dec a b)
         | |- context [Rcase_abs ?a] => destruct (Rcase_abs a)
         | H : context [Rle_dec ?a ?b] |- _ => destruct (Rle_dec a b)
         | H : context [Rcase_abs ?a] |- _ => destruct (Rcase_abs a)
         end;
  try lra.

Section Slots.

Variable n : nat.
Hypothesis Hn : (0 < n)%nat.

Let s : R := App.angleStep n.

Lemma INR_ge_1 : 1 <= INR n.
Proof. apply (le_INR 1 n). lia. Qed.

Lemma angleStep_slots : s = 2 * PI / INR n /\ 0 < s /\ INR n * s = 2 * PI.
Proof.
  pose proof INR_ge_1 as H1. pose proof PI_RGT_0 as Hpi.
  subst s. unfold App.angleStep. rewrite Rmax_right by exact H1.
  split; [field; lra|]. split.
  - apply Rdiv_lt_0_compat; lra.
  - field. lra.
Qed.

Lemma slotAngle_step i : slotAngle n i = INR i * s.
Proof. unfold slotAngle. now rewrite (proj1 angleStep_slots). Qed.

Lemma slot_bounds j : (j < n)%nat -> 0 <= INR j * s /\ INR j * s + s <= 2 * PI.
Proof.
  intros Hj. destruct angleStep_slots as (_ & Hs & Hsum).
  pose proof (pos_INR j) as H0.
  assert (H1 : INR j + 1 <= INR n) by (rewrite <- S_INR; apply le_INR; lia).
  split; [apply Rmult_le_pos; lra|].
  assert (H2 : (INR j + 1) * s <= INR n * s)
    by (apply Rmult_le_compat_r; lra).
  lra.
Qed.

Lemma slot_step i j : (i < j)%nat -> INR i * s + s <= INR j * s.
Proof.
  intros Hij. destruct angleStep_slots as (_ & Hs & _).
  assert (H1 : INR i + 1 <= INR j) by (rewrite <- S_INR; apply le_INR; lia).
  assert (H2 : (INR i + 1) * s <= INR j * s)
    by (apply Rmult_le_compat_r; lra).
  lra.
Qed.

Lemma slot_succ i : INR (S i) * s = INR i * s + s.
Proof. rewrite S_INR. ring. Qed.

Lemma slotDiff_slot t j :
  (j < n)%nat -> App.slotDiff t s j = shorterArc t (slotAngle n j).
Proof.
  intros Hj. rewrite slotAngle_step. apply slotDiff_arc.
  destruct (slot_bounds j Hj). destruct angleStep_slots as (_ & Hs & _). lra.
Qed.

(** Two different slots are at least one step apart on the circle. *)
Lemma slots_apart i j :
  (i < n)%nat -> (j < n)%nat -> i <> j ->
  s <= shorterArc (INR i * s) (INR j * s).
Proof.
  intros Hi Hj Hne.
  destruct (slot_bounds i Hi), (slot_bounds j Hj).
  destruct (Nat.lt_total i j) as [L|[E|L]]; [|contradiction|];
    pose proof (slot_step _ _ L); arc_cases.
Qed.

(** A target between slot [i] and the next one is within half a step of
    one of the two. *)
Lemma neighbour_close t i :
  (i < n)%nat -> 0 <= t < 2 * PI ->
  INR i * s <= t <= INR i * s + s ->
  shorterArc t (INR i * s) <= s / 2
  \/ shorterArc t (INR (S i mod n) * s) <= s / 2.
Proof.
  intros Hi Ht Hbetween.
  destruct (slot_bounds i Hi). destruct angleStep_slots as (_ & Hs & Hsum).
  destruct (Nat.eq_dec (S i) n) as [E|E].
  - rewrite E, Nat.Div0.mod_same. simpl INR. rewrite Rmult_0_l.
    assert (INR i * s + s = 2 * PI) by (rewrite <- slot_succ, E; exact Hsum).
    destruct (Rle_dec (t - INR i * s) (s / 2)); [left|right]; arc_cases.
  - rewrite Nat.mod_small by lia. rewrite slot_succ.
    destruct (Rle_dec (t - INR i * s) (s / 2)); [left|right]; arc_cases.
Qed.

(** A slot that is neither of the two neighbours is a full step away. *)
Lemma stranger_far t i k :
  (i < n)%nat -> (k < n)%nat -> 0 <= t < 2 * PI ->
  INR i * s <= t <= INR i * s + s ->
  k <> i -> k <> (S i mod n)%nat ->
  s <= shorterArc t (INR k * s).
Proof.
  intros Hi Hk Ht Hbetween Hki Hkn.
  destruct (slot_bounds i Hi), (slot_bounds k Hk).
  destruct angleStep_slots as (_ & Hs & Hsum).
  destruct (Nat.eq_dec (S i) n) as [E|E].
  - rewrite E, Nat.Div0.mod_same in Hkn.
    assert (INR i * s + s = 2 * PI) by (rewrite <- slot_succ, E; exact Hsum).
    assert (L0 : (0 < k)%nat) by lia. assert (L1 : (k < i)%nat) by lia.
    pose proof (slot_step _ _ L0) as S0. pose proof (slot_step _ _ L1) as S1.
    simpl INR in S0. rewrite Rmult_0_l in S0. arc_cases.
  - rewrite Nat.mod_small in Hkn by lia.
    assert (Hsi : (S i < n)%nat) by lia.
    pose proof (slot_bounds (S i) Hsi) as [_ Bs]. rewrite slot_succ in Bs.
    destruct (Nat.lt_total k i) as [L|[?|L]]; [|contradiction|].
    + pose proof (slot_step _ _ L). arc_cases.
    + assert (L' : (S i < k)%nat) by lia.
      pose proof (slot_step _ _ L') as S1. rewrite slot_succ in S1. arc_cases.
Qed.

(** Half-way between slot [i] and the next one, both are half a step
    away. *)
Lemma midpoint_tie t i :
  (i < n)%nat -> t = INR i * s + s / 2 ->
  shorterArc t (INR i * s) = s / 2
  /\ shorterArc t (INR (S i mod n) * s) = s / 2.
Proof.
  intros Hi Ht.
  destruct (slot_bounds i Hi). destruct angleStep_slots as (_ & Hs & Hsum).
  assert (s <= 2 * PI).
  { destruct (slot_bounds 0 Hn) as [_ B]. simpl INR in B. lra. }
  destruct (Nat.eq_dec (S i) n) as [E|E].
  - rewrite E, Nat.Div0.mod_same. simpl INR. rewrite Rmult_0_l.
    assert (INR i * s + s = 2 * PI) by (rewrite <- slot_succ, E; exact Hsum).
    split; arc_cases.
  - rewrite Nat.mod_small by lia. rewrite slot_succ. split; arc_cases.
Qed.

End Slots.

Lemma closestIndex_firstLeast (target : R) (photos : list string) :
  photos <> [] ->
  exists k,
    App.closestIndex target photos = Z.of_nat k
    /\ firstLeast (List.length photos) target k.
Proof.
  intros Hne. set (n := List.length photos).
  assert (Hn : (0 < n)%nat)
    by (subst n; destruct photos; simpl; [congruence|lia]).
  destruct (selectLoop_first_least target (App.angleStep n) n Hn)
    as (k & E & Hk & Hmin & Hfirst).
  exists k. split.
  - unfold App.closestIndex, App.selectLoop. fold n. now rewrite E.
  - split; [exact Hk|]. split.
    + intros j Hj. rewrite <- !slotDiff_slot by assumption. now apply Hmin.
    + intros j Hj. rewrite <- !slotDiff_slot by (assumption || lia).
      now apply Hfirst.
Qed.

Lemma firstLeast_at_slot n t k i :
  firstLeast n t k -> (i < n)%nat -> t = slotAngle n i -> k = i.
Proof.
  intros (Hk & Hmin & _) Hi Hti.
  assert (Hn : (0 < n)%nat) by lia.
  destruct (angleStep_slots n Hn) as (_ & Hspos & _).
  destruct (Nat.eq_dec k i) as [?|Hki]; [assumption|exfalso].
  pose proof (Hmin i Hi) as M. rewrite Hti in M.
  rewrite !slotAngle_step in M by exact Hn.
  pose proof (slots_apart n Hn i k Hi Hk ltac:(congruence)) as A.
  assert (Z0 : shorterArc (INR i * App.angleStep n) (INR i * App.angleStep n) = 0)
    by (pose proof PI_RGT_0; arc_cases).
  lra.
Qed.

Lemma firstLeast_between n t k i :
  firstLeast n t k -> (i < n)%nat -> 0 <= t < 2 * PI ->
  slotAngle n i <= t <= slotAngle n i + App.angleStep n ->
  k = i \/ k = (S i mod n)%nat.
Proof.
  intros (Hk & Hmin & _) Hi Ht Hb.
  assert (Hn : (0 < n)%nat) by lia.
  destruct (angleStep_slots n Hn) as (_ & Hspos & _).
  rewrite slotAngle_step in Hb by exact Hn.
  destruct (Nat.eq_dec k i) as [?|Hki]; [now left|].
  destruct (Nat.eq_dec k (S i mod n)) as [?|Hkn]; [now right|].
  exfalso.
  pose proof (stranger_far n Hn t i k Hi Hk Ht Hb Hki Hkn) as Hfar.
  assert (Hi' : (S i mod n < n)%nat) by (apply Nat.mod_upper_bound; lia).
  pose proof (Hmin i Hi) as M1. pose proof (Hmin _ Hi') as M2.
  rewrite !slotAngle_step in M1, M2 by exact Hn.
  destruct (neighbour_close n Hn t i Hi Ht Hb); lra.
Qed.

Lemma firstLeast_midpoint n t k i :
  firstLeast n t k -> (i < n)%nat -> 0 <= t < 2 * PI ->
  t = slotAngle n i + App.angleStep n / 2 ->
  k = Nat.min i (S i mod n).
Proof.
  intros HFL Hi Ht Hti.
  assert (Hn : (0 < n)%nat) by lia.
  destruct (angleStep_slots n Hn) as (_ & Hspos & _).
  assert (Hb : slotAngle n i <= t <= slotAngle n i + App.angleStep n) by lra.
  destruct (firstLeast_between n t k i HFL Hi Ht Hb) as [E|E];
    destruct HFL as (_ & _ & Hfirst);
    rewrite slotAngle_step in Hti by exact Hn;
    destruct (midpoint_tie n Hn t i Hi Hti) as [T1 T2]; subst k.
  - destruct (Nat.le_gt_cases i (S i mod n)) as [L|L]; [lia|].
    specialize (Hfirst _ L). rewrite !slotAngle_step in Hfirst by exact Hn.
    lra.
  - destruct (Nat.le_gt_cases (S i mod n) i) as [L|L]; [lia|].
    specialize (Hfirst _ L). rewrite !slotAngle_step in Hfirst by exact Hn.
    lra.
Qed.

(** *** The selector on doubles *)








(** With ten photos and the hand in the middle of the frame the loop on
    doubles returns slot 2, as the loop on reals does. *)
Lemma double_centre_of_ten :
  Double.closestIndex Double.targetAtCentre (photos galleryOfTen) = 2%Z.
Proof. vm_compute. reflexivity. Qed.




(** *** The target angle *)

Lemma atan_nonpos x : x <= 0 -> atan x <= 0.
Proof.
  intros [L | ->]; [|rewrite atan_0; lra].
  pose proof (atan_increasing x 0 L) as H. rewrite atan_0 in H. lra.
Qed.

Lemma atan2_range y x : - PI < Js.atan2 y x <= PI.
Proof.
  pose proof PI_RGT_0 as Hpi. unfold Js.atan2.
  destruct (Rlt_dec 0 x) as [Px|Px].
  - pose proof (atan_bound (y / x)). lra.
  - destruct (Rlt_dec x 0) as [Nx|Nx].
    + pose proof (atan_bound (y / x)) as B.
      assert (Ix : / x < 0) by now apply Rinv_lt_0_compat.
      destruct (Rle_dec 0 y) as [Py|Py].
      * assert (y / x <= 0) by (unfold Rdiv; nra).
        pose proof (atan_nonpos (y / x)). lra.
      * assert (Q : 0 < y / x) by (unfold Rdiv; nra).
        pose proof (atan_increasing 0 (y / x) Q) as I.
        rewrite atan_0 in I. lra.
    + destruct (Rlt_dec 0 y); [lra|]. destruct (Rlt_dec y 0); lra.
Qed.

(** The angle handed to the loop is normalised. *)
Lemma targetAngle_range rot : 0 <= App.targetAngle rot < 2 * PI.
Proof.
  unfold App.targetAngle. cbv zeta.
  pose proof (atan2_range (cos (rot_x rot * 3)) (sin (rot_x rot * 3))) as B.
  unfold Js.ltb. destruct (Rlt_dec _ 0); lra.
Qed.

(** Whenever a pinch selects, the focus is a valid index of the list. *)
Lemma pinch_focus_valid r prev :
  pinchSelects "Pinch" prev = true ->
  exists k,
    focusedPhotoIndex (App.gestureUpdater "Pinch" r prev) = Some (Z.of_nat k)
    /\ (k < List.length (photos prev))%nat.
Proof.
  intros Hsel. destruct (pinch_updater_cases r prev) as (_ & Hyes & _).
  apply pinchSelects_spec in Hsel as Hcond.
  destruct Hcond as (_ & _ & _ & Hne).
  destruct (closestIndex_firstLeast
              (App.targetAngle (App.currentRotation r)) (photos prev) Hne)
    as (k & E & Hk & _).
  exists k. split; [|exact Hk]. now rewrite (Hyes Hsel), E.
Qed.

(** With the hand in the middle of the frame the camera has yaw 0 and sits
    at [(sin 0, cos 0)], a quarter turn into the photo circle. *)
Lemma targetAngle_centre y : App.targetAngle (mkRotation 0 y) = PI / 2.
Proof.
  pose proof PI_RGT_0 as Hpi.
  unfold App.targetAngle. cbv zeta. simpl rot_x.
  rewrite Rmult_0_l, sin_0, cos_0.
  unfold Js.atan2, Js.ltb.
  destruct (Rlt_dec 0 0); [lra|]. destruct (Rlt_dec 0 1); [|lra].
  destruct (Rlt_dec (PI / 2) 0); lra.
Qed.

Lemma closestIndex_quarter_of_ten (photos : list string) :
  List.length photos = 10%nat -> App.closestIndex (PI / 2) photos = 2%Z.
Proof.
  intros Hlen. pose proof PI_RGT_0 as Hpi.
  assert (Hne : photos <> []) by (destruct photos; [discriminate Hlen|congruence]).
  destruct (closestIndex_firstLeast (PI / 2) photos Hne) as (k & E & HFL).
  rewrite Hlen in HFL. rewrite E.
  rewrite (firstLeast_midpoint 10 (PI / 2) k 2 HFL); [reflexivity|lia|lra|].
  unfold slotAngle, App.angleStep.
  rewrite Rmax_right by (apply (le_INR 1 10); lia).
  simpl INR. field.
Qed.

(** C2, as stated, fails: with ten photos, the tree scattered and the hand
    in the middle of the frame, a rising-edge Pinch focuses photo 2, not
    photo 0. *)
Lemma pinch_centre_focuses_two :
  List.length (photos galleryOfTen) = 10%nat
  /\ treeState galleryOfTen = SCATTERED
  /\ isRisingEdge (currentGesture galleryOfTen) "Pinch" "Pinch" = true
  /\ focusedPhotoIndex
       (App.gestureUpdater "Pinch" (Some (mkRotation 0 0)) galleryOfTen)
     = Some 2%Z
  /\ focusedPhotoIndex
       (App.gestureUpdater "Pinch" (Some (mkRotation 0 0)) galleryOfTen)
     <> Some 0%Z.
Proof.
  assert (E : focusedPhotoIndex
                (App.gestureUpdater "Pinch" (Some (mkRotation 0 0)) galleryOfTen)
              = Some 2%Z).
  { unfold App.gestureUpdater. cbn -[App.closestIndex App.targetAngle].
    rewrite targetAngle_centre, closestIndex_quarter_of_ten; reflexivity. }
  repeat split; try exact E. rewrite E. discriminate.
Qed.

(** C2, amended: with exactly ten photos, the tree scattered and the
    directional signal at x = 0, a rising-edge Pinch leaves the tree state
    and sets the focus index to 2.  The target angle is a quarter turn,
    half-way between slot 2 and slot 3, both a twentieth of a turn away;
    the one met first is taken. *)
Theorem pinch_centre_of_ten (prev : AppState) (y : R)
  (Hlen : List.length (photos prev) = 10%nat)
  (Hstate : treeState prev = SCATTERED)
  (Hedge : currentGesture prev <> "Pinch"%string) :
  let st' := App.gestureUpdater "Pinch" (Some (mkRotation 0 y)) prev in
  focusedPhotoIndex st' = Some 2%Z
  /\ treeState st' = SCATTERED
  /\ App.targetAngle (mkRotation 0 y) = PI / 2
  /\ shorterArc (PI / 2) (slotAngle 10 2) = PI / 10
  /\ shorterArc (PI / 2) (slotAngle 10 3) = PI / 10.
Proof.
  intros st'.
  destruct (pinch_updater_cases (Some (mkRotation 0 y)) prev)
    as (Ht & Hsel & _).
  split; [|split; [|split; [|split]]].
  - subst st'. rewrite Hsel.
    + simpl App.currentRotation.
      now rewrite targetAngle_centre, closestIndex_quarter_of_ten.
    + apply pinchSelects_spec. repeat split; try assumption.
      destruct (photos prev); [discriminate Hlen|congruence].
  - subst st'. now rewrite Ht.
  - apply targetAngle_centre.
  - pose proof PI_RGT_0. unfold slotAngle. simpl INR. arc_cases.
  - pose proof PI_RGT_0. unfold slotAngle. simpl INR. arc_cases.
Qed.

Lemma pinch_centre_of_ten_witness :
  focusedPhotoIndex
    (App.gestureUpdater "Pinch" (Some (mkRotation 0 0)) galleryOfTen)
  = Some 2%Z.
Proof.
  apply (pinch_centre_of_ten galleryOfTen 0 eq_refl eq_refl).
  discriminate.
Defined.

End Selector.

(** ** More on the controller *)

Section Controller.

Lemma filterIndex_negative (arr : list string) (index : Z) (i : nat) :
  (index < 0)%Z -> App.filterIndex index i arr = arr.
Proof. intros H. apply filterIndex_past. lia. Qed.

Lemma filterIndex_beyond (arr : list string) :
  forall (index : Z) (i : nat),
    (Z.of_nat (i + List.length arr) <= index)%Z ->
    App.filterIndex index i arr = arr.
Proof.
  induction arr as [|p rest IH]; intros index i H; simpl in *; [reflexivity|].
  destruct (Z.eqb_spec (Z.of_nat i) index) as [E|_]; [lia|].
  f_equal. apply IH. simpl. lia.
Qed.

(** X1: adding a photo and then removing the last index gives back the state:
    the upload is undone exactly. *)
Theorem addPhoto_removePhoto_last (url : string) (st : AppState) :
  App.removePhoto (Z.of_nat (List.length (photos st))) (App.addPhoto url st)
  = st.
Proof.
  destruct st as [ts ug cg ph bg fi ct]. unfold App.removePhoto, App.addPhoto.
  cbn [photos treeState useGestures currentGesture bgmUrl focusedPhotoIndex
       customText].
  f_equal.
  change (Z.of_nat (List.length ph)) with (Z.of_nat (0 + List.length ph)).
  rewrite (filterIndex_offset (ph ++ [url]) 0 (List.length ph)).
  rewrite firstn_app, firstn_all, Nat.sub_diag.
  rewrite skipn_all2 by (rewrite length_app; simpl; lia).
  simpl. now rewrite !app_nil_r.
Qed.

(** X2: removing at an index that is negative or not below the length changes
    nothing; removing at an index of the list shortens it by one. *)
Theorem removePhoto_bounds (index : Z) (st : AppState) :
  ((index < 0 \/ Z.of_nat (List.length (photos st)) <= index)%Z ->
   App.removePhoto index st = st)
  /\ ((0 <= index < Z.of_nat (List.length (photos st)))%Z ->
      S (List.length (photos (App.removePhoto index st)))
      = List.length (photos st)).
Proof.
  split.
  - intros H. destruct st as [ts ug cg ph bg fi ct].
    unfold App.removePhoto. simpl in *. f_equal.
    destruct H as [H|H]; [now apply filterIndex_negative|].
    now apply filterIndex_beyond.
  - intros H. simpl.
    replace index with (Z.of_nat (0 + Z.to_nat index)) by lia.
    rewrite filterIndex_offset, length_app, length_firstn, length_skipn. lia.
Qed.

Lemma run_twoState evs :
  forall st, twoState st -> twoState (App.run evs st).
Proof.
  unfold App.run.
  induction evs as [|ev evs IH]; intros st Hst; simpl; [exact Hst|].
  apply IH. now apply step_twoState.
Qed.

(** X3: in every state the controller can reach, the manual toggle pressed
    twice brings the tree back to where it was. *)
Theorem toggleTreeState_twice (evs : list App.Event) :
  let st := App.run evs App.initialState in
  treeState (App.toggleTreeState (App.toggleTreeState st)) = treeState st
  /\ treeState (App.toggleTreeState st) <> treeState st.
Proof.
  intros st.
  assert (H : twoState st) by (apply run_twoState; now left).
  destruct H as [H|H]; simpl; rewrite H; simpl; split; congruence.
Qed.

(** X4: a label that is repeated changes nothing the second time, whatever
    the rotations: a held gesture is handled once. *)
Theorem gestureUpdater_repeat (g : string) (r1 r2 : option Rotation)
  (st : AppState) :
  App.gestureUpdater g r2 (App.gestureUpdater g r1 st)
  = App.gestureUpdater g r1 st.
Proof.
  destruct (String.eqb_spec g "Fist") as [->|HF]; [reflexivity|].
  destruct (String.eqb_spec g "Open") as [->|HO]; [reflexivity|].
  pose proof (gestureUpdater_label g r1 st) as L.
  remember (App.gestureUpdater g r1 st) as inner eqn:Einner.
  clear Einner.
  destruct inner as [ts ug cg ph bg fi ct]. simpl in L. subst cg.
  unfold App.gestureUpdater.
  rewrite (proj2 (String.eqb_neq g "Fist") HF),
          (proj2 (String.eqb_neq g "Open") HO).
  cbn [treeState useGestures currentGesture photos bgmUrl focusedPhotoIndex
       customText].
  destruct (String.eqb_spec g "Pinch") as [->|HP]; reflexivity.
Qed.

Lemma gestureUpdater_focusValid g r st :
  focusValid st -> focusValid (App.gestureUpdater g r st).
Proof.
  intros H k. unfold App.gestureUpdater.
  destruct (g =? "Fist")%string; [discriminate|].
  destruct (g =? "Open")%string; [discriminate|].
  destruct (g =? "Pinch")%string; [|apply H].
  destruct (negb (currentGesture st =? "Pinch")%string
            && TreeState_eqb (treeState st) SCATTERED); [|apply H].
  destruct (0 <? List.length (photos st))%nat eqn:E; [|apply H].
  cbn [focusedPhotoIndex photos]. intros F. injection F as <-.
  apply Nat.ltb_lt in E.
  assert (Hne : photos st <> []) by (destruct (photos st); simpl in E; [lia|congruence]).
  destruct (closestIndex_firstLeast
              (App.targetAngle (App.currentRotation r)) (photos st) Hne)
    as (j & -> & Hj & _).
  lia.
Qed.

Lemma step_focusValid st ev :
  focusValid st -> keepsIndices st ev -> focusValid (App.step st ev).
Proof.
  intros H Hev. destruct ev as [g r|url|i| |url|t| |i]; simpl in *;
    try exact H; try contradiction.
  - unfold App.handleGestureUpdate.
    destruct (negb (useGestures st)); [exact H|].
    now apply gestureUpdater_focusValid.
  - intros k F. simpl in *. rewrite length_app. specialize (H k F). simpl. lia.
  - intros k F. discriminate F.
  - unfold App.handlePhotoClick.
    destruct (negb (useGestures st) && TreeState_eqb (treeState st) SCATTERED);
      [|exact H].
    intros k. cbn [focusedPhotoIndex photos].
    destruct (focusedPhotoIndex st) as [f|]; [destruct (Z.eqb f i)|];
      intros F; try discriminate F; injection F as <-; exact Hev.
Qed.

(** X5: along any run of events without a removal, and with clicks only on
    photos that are there, a focus index always points into the photo
    list. *)
Theorem focus_stays_in_bounds (evs : list App.Event) (st : AppState)
  (Hvalid : focusValid st) (Hsafe : keepsIndicesAlong evs st) :
  focusValid (App.run evs st).
Proof.
  unfold App.run. revert st Hvalid Hsafe.
  induction evs as [|ev evs IH]; intros st Hvalid Hsafe; simpl;
    [exact Hvalid|].
  destruct Hsafe as [Hev Hrest].
  apply IH; [now apply step_focusValid|exact Hrest].
Qed.

Lemma focus_stays_in_bounds_witness :
  focusValid
    (App.run [App.GestureUpdate "Pinch" (Some (mkRotation 0 0));
              App.AddPhoto "p10"; App.PhotoClick 10] galleryOfTen).
Proof.
  apply focus_stays_in_bounds.
  - intros k F. discriminate F.
  - cbn [keepsIndicesAlong keepsIndices]. split; [exact I|].
    split; [exact I|]. split; [|exact I].
    unfold App.step, App.handleGestureUpdate, App.addPhoto.
    cbn [useGestures galleryOfTen negb photos].
    rewrite length_app.
    unfold App.gestureUpdater. cbn -[App.closestIndex App.targetAngle Z.of_nat].
    simpl. lia.
Defined.

End Controller.

(** ** The selector and the gallery *)

Section Nearest.

Local Open Scope R_scope.

Ltac arc_split :=
  unfold shorterArc, Rmin, Rabs in *;
  repeat match goal with
         | |- context [Rle_dec ?a ?b] => destruct (Rle_dec a b)
         | |- context [Rcase_abs ?a] => destruct (Rcase_abs a)
         end;
  try lra.

Lemma sqrt_unit_ratio x y :
  x <> 0 -> x * x + y * y = 1 -> sqrt (1 + (y / x)²) = / Rabs x.
Proof.
  intros Hx H.
  replace (1 + (y / x)²) with (Rsqr (/ x)).
  - now rewrite sqrt_Rsqr_abs, Rabs_inv.
  - unfold Rsqr. field_simplify_eq; [nra|exact Hx].
Qed.

Lemma atan_unit x y :
  x <> 0 -> x * x + y * y = 1 ->
  cos (atan (y / x)) = Rabs x /\ sin (atan (y / x)) = y / x * Rabs x.
Proof.
  intros Hx H.
  assert (Ha : Rabs x <> 0) by now apply Rabs_no_R0.
  rewrite cos_atan, sin_atan, (sqrt_unit_ratio x y Hx H).
  split; field; auto.
Qed.

(** For a point of the unit circle, [atan2] is its polar angle. *)
Lemma atan2_unit y x :
  x * x + y * y = 1 ->
  cos (Js.atan2 y x) = x /\ sin (Js.atan2 y x) = y.
Proof.
  intros H. unfold Js.atan2.
  destruct (Rlt_dec 0 x) as [Px|Px].
  - destruct (atan_unit x y ltac:(lra) H) as [C S].
    rewrite C, S, Rabs_right by lra. split; [reflexivity|field; lra].
  - destruct (Rlt_dec x 0) as [Nx|Nx].
    + destruct (atan_unit x y ltac:(lra) H) as [C S].
      rewrite Rabs_left in C, S by exact Nx.
      destruct (Rle_dec 0 y).
      * rewrite neg_cos, neg_sin, C, S. split; field; lra.
      * rewrite cos_minus, sin_minus, cos_PI, sin_PI, C, S.
        split; field; lra.
    + assert (x = 0) by lra. subst x.
      destruct (Rlt_dec 0 y) as [Py|Py].
      * rewrite cos_PI2, sin_PI2. split; [reflexivity|nra].
      * destruct (Rlt_dec y 0) as [Ny|Ny]; [|nra].
        rewrite cos_neg, sin_neg, cos_PI2, sin_PI2. split; [reflexivity|nra].
Qed.

Lemma targetAngle_direction (rotation : Rotation) :
  cos (App.targetAngle rotation) = sin (rot_x rotation * 3)
  /\ sin (App.targetAngle rotation) = cos (rot_x rotation * 3).
Proof.
  unfold App.targetAngle. cbv zeta.
  destruct (atan2_unit (cos (rot_x rotation * 3)) (sin (rot_x rotation * 3)))
    as [C S].
  { pose proof (sin2_cos2 (rot_x rotation * 3)) as E. unfold Rsqr in E. lra. }
  destruct (Js.ltb _ 0); [|split; assumption].
  rewrite cos_plus, sin_plus, C, S.
  replace (PI * 2) with (2 * PI) by ring. rewrite cos_2PI, sin_2PI.
  split; ring.
Qed.

(** X6: the target angle of the selector is the polar angle, in the photo
    circle and within one turn from 0, of the point the camera is steered
    to: yaw [3 x] on a circle whose angle 0 points along the z axis. *)
Theorem targetAngle_is_camera_angle (rotation : Rotation) :
  cos (App.targetAngle rotation) = sin (rot_x rotation * 3)
  /\ sin (App.targetAngle rotation) = cos (rot_x rotation * 3)
  /\ 0 <= App.targetAngle rotation < 2 * PI.
Proof.
  destruct (targetAngle_direction rotation) as [C S].
  split; [exact C|]. split; [exact S|apply targetAngle_range].
Qed.

Lemma shorterArc_range a b :
  0 <= a < 2 * PI -> 0 <= b < 2 * PI -> 0 <= shorterArc a b <= PI.
Proof. intros Ha Hb. arc_split. Qed.

Lemma cos_shorterArc a b : cos (shorterArc a b) = cos (a - b).
Proof.
  assert (E : cos (Rabs (a - b)) = cos (a - b)).
  { unfold Rabs. destruct (Rcase_abs (a - b)); [apply cos_neg|reflexivity]. }
  unfold shorterArc, Rmin.
  destruct (Rle_dec _ _); [exact E|].
  rewrite cos_minus, cos_2PI, sin_2PI, E. ring.
Qed.

Lemma galleryTheta_slotAngle i n :
  (0 < n)%nat -> Gallery.galleryTheta i n = slotAngle n i.
Proof.
  intros Hn. unfold Gallery.galleryTheta, Gallery.angleStep, slotAngle.
  rewrite Rmax_right by (apply (le_INR 1 n); lia).
  pose proof (INR_ge_1 n Hn). field. lra.
Qed.

(** The horizontal distance from photo [i] of the gallery to the camera
    target, by the angle between them. *)
Lemma gallery_distance rotation radius height i n :
  (0 < n)%nat ->
  horizontalDist2 (Gallery.scatteredPos i n)
    (cameraTarget rotation radius height)
  = 196 + radius * radius
    - 28 * radius * cos (shorterArc (App.targetAngle rotation) (slotAngle n i)).
Proof.
  intros Hn.
  destruct (targetAngle_direction rotation) as (C & S).
  rewrite cos_shorterArc, cos_minus, C, S, <- galleryTheta_slotAngle by exact Hn.
  unfold horizontalDist2, Gallery.scatteredPos, cameraTarget,
    Gallery.galleryRadius. simpl.
  pose proof (sin2_cos2 (Gallery.galleryTheta i n)) as E1.
  pose proof (sin2_cos2 (rot_x rotation * 3)) as E2.
  unfold Rsqr in E1, E2.
  set (ca := cos (Gallery.galleryTheta i n)) in *.
  set (sa := sin (Gallery.galleryTheta i n)) in *.
  set (ct := cos (rot_x rotation * 3)) in *.
  set (st := sin (rot_x rotation * 3)) in *.
  nra.
Qed.

(** X7: a pinch that selects focuses the photo whose gallery position is, in
    the horizontal plane, nearest to the point the camera is steered to,
    whatever the radius of the camera circle. *)
Theorem pinch_selects_nearest_photo (r : option Rotation) (prev : AppState)
  (radius height : R)
  (Hedge : currentGesture prev <> "Pinch"%string)
  (Hstate : treeState prev = SCATTERED)
  (Hne : photos prev <> [])
  (Hradius : 0 <= radius) :
  let n := List.length (photos prev) in
  let camera := cameraTarget (App.currentRotation r) radius height in
  exists k,
    focusedPhotoIndex (App.gestureUpdater "Pinch" r prev) = Some (Z.of_nat k)
    /\ (k < n)%nat
    /\ forall j, (j < n)%nat ->
         horizontalDist2 (Gallery.scatteredPos k n) camera
         <= horizontalDist2 (Gallery.scatteredPos j n) camera.
Proof.
  intros n camera.
  destruct (pinch_updater_cases r prev) as (_ & Hyes & _).
  assert (Hsel : pinchSelects "Pinch" prev = true)
    by (apply pinchSelects_spec; auto).
  destruct (closestIndex_firstLeast
              (App.targetAngle (App.currentRotation r)) (photos prev) Hne)
    as (k & E & Hk & Hmin & _).
  fold n in Hk, Hmin.
  assert (Hn : (0 < n)%nat) by lia.
  exists k. split; [now rewrite (Hyes Hsel), E|]. split; [exact Hk|].
  intros j Hj. subst camera. rewrite !gallery_distance by exact Hn.
  pose proof (targetAngle_range (App.currentRotation r)) as Ht.
  assert (Hslot : forall i, (i < n)%nat -> 0 <= slotAngle n i < 2 * PI).
  { intros i Hi. rewrite slotAngle_step by exact Hn.
    destruct (slot_bounds n Hn i Hi).
    destruct (angleStep_slots n Hn) as (_ & Hs & _). lra. }
  pose proof (shorterArc_range _ _ Ht (Hslot k Hk)) as Rk.
  pose proof (shorterArc_range _ _ Ht (Hslot j Hj)) as Rj.
  pose proof (cos_decr_1 _ _ (proj1 Rk) (proj2 Rk) (proj1 Rj) (proj2 Rj)
                (Hmin j Hj)) as Hcos.
  nra.
Qed.

Lemma pinch_selects_nearest_photo_witness :
  exists k,
    focusedPhotoIndex
      (App.gestureUpdater "Pinch" (Some (mkRotation 0 0)) galleryOfTen)
    = Some (Z.of_nat k)
    /\ (k < 10)%nat.
Proof.
  assert (Hedge : currentGesture galleryOfTen <> "Pinch"%string)
    by discriminate.
  assert (Hne : photos galleryOfTen <> []) by discriminate.
  assert (Hr : 0 <= 30) by lra.
  destruct (pinch_selects_nearest_photo (Some (mkRotation 0 0)) galleryOfTen
              30 6 Hedge eq_refl Hne Hr) as (k & E & Hk & _).
  exists k. split; [exact E|exact Hk].
Defined.

(** X8: in the gallery every photo stands on the circle of radius 14 at a
    height between 0 and 4, and two different photos are at least as far
    apart as neighbouring slots, so never at the same place. *)
Theorem gallery_slots_apart (i j n : nat)
  (Hi : (i < n)%nat) (Hj : (j < n)%nat) (Hij : i <> j) :
  let p := Gallery.scatteredPos i n in
  let q := Gallery.scatteredPos j n in
  Scene.vx p ^ 2 + Scene.vz p ^ 2 = 196
  /\ 0 <= Scene.vy p <= 4
  /\ 0 < horizontalDist2 p q
  /\ 392 * (1 - cos (Gallery.angleStep n)) <= horizontalDist2 p q.
Proof.
  intros p q. assert (Hn : (0 < n)%nat) by lia.
  pose proof (sin2_cos2 (Gallery.galleryTheta i n)) as Ei.
  pose proof (sin2_cos2 (Gallery.galleryTheta j n)) as Ej.
  unfold Rsqr in Ei, Ej.
  split; [|split].
  - subst p. unfold Gallery.scatteredPos, Gallery.galleryRadius. simpl. nra.
  - subst p. unfold Gallery.scatteredPos, Gallery.galleryY. simpl.
    pose proof (SIN_bound (INR i * 0.5)). lra.
  - assert (D : horizontalDist2 p q
                = 392 * (1 - cos (shorterArc (slotAngle n i) (slotAngle n j)))).
    { rewrite cos_shorterArc, cos_minus, <- !galleryTheta_slotAngle by exact Hn.
      subst p q. unfold horizontalDist2, Gallery.scatteredPos,
        Gallery.galleryRadius. simpl. nra. }
    assert (Hstep : Gallery.angleStep n = App.angleStep n) by reflexivity.
    pose proof (slots_apart n Hn i j Hi Hj Hij) as Hfar.
    rewrite <- !slotAngle_step in Hfar by exact Hn.
    assert (Hslot : forall m, (m < n)%nat -> 0 <= slotAngle n m < 2 * PI).
    { intros m Hm. rewrite slotAngle_step by exact Hn.
      destruct (slot_bounds n Hn m Hm).
      destruct (angleStep_slots n Hn) as (_ & Hs & _). lra. }
    pose proof (shorterArc_range _ _ (Hslot i Hi) (Hslot j Hj)) as Ra.
    destruct (angleStep_slots n Hn) as (_ & Hs & _).
    rewrite D, Hstep.
    assert (C1 : cos (shorterArc (slotAngle n i) (slotAngle n j))
                 <= cos (App.angleStep n))
      by (apply cos_decr_1; lra).
    assert (C2 : cos (shorterArc (slotAngle n i) (slotAngle n j)) < 1).
    { rewrite <- cos_0. apply cos_decreasing_1; lra. }
    split; lra.
Qed.

Lemma gallery_slots_apart_witness :
  0 < horizontalDist2 (Gallery.scatteredPos 2 10) (Gallery.scatteredPos 3 10).
Proof.
  apply (gallery_slots_apart 2 3 10); lia.
Defined.

Lemma gallery_t_range i n :
  (i < n)%nat -> 0.1 <= Gallery.t i n <= 0.9.
Proof.
  intros Hi. unfold Gallery.t.
  destruct (1 <? n)%nat eqn:E; [|lra].
  apply Nat.ltb_lt in E.
  assert (H1 : 0 < INR n - 1).
  { assert (2 <= INR n) by (apply (le_INR 2 n); lia). lra. }
  assert (H2 : INR i <= INR n - 1).
  { assert (INR (S i) <= INR n) by (apply le_INR; lia).
    rewrite S_INR in *. lra. }
  pose proof (pos_INR i) as H0.
  assert (0 <= INR i / (INR n - 1) <= 1).
  { split.
    - apply Rmult_le_pos; [exact H0|]. left. now apply Rinv_0_lt_compat.
    - apply (Rmult_le_reg_r (INR n - 1)); [exact H1|].
      unfold Rdiv. rewrite Rmult_assoc, Rinv_l by lra. lra. }
  lra.
Qed.

Lemma gallery_t_increasing i j n :
  (i < j)%nat -> (j < n)%nat -> Gallery.t i n < Gallery.t j n.
Proof.
  intros Hij Hj. unfold Gallery.t.
  assert (E : (1 <? n)%nat = true) by (apply Nat.ltb_lt; lia).
  rewrite E.
  assert (H1 : 0 < INR n - 1).
  { assert (2 <= INR n) by (apply (le_INR 2 n); lia). lra. }
  assert (H2 : INR i < INR j) by (apply lt_INR; exact Hij).
  assert (INR i / (INR n - 1) < INR j / (INR n - 1)).
  { unfold Rdiv. apply Rmult_lt_compat_r; [|exact H2].
    now apply Rinv_0_lt_compat. }
  lra.
Qed.

(** X9: on the tree a photo stands between heights -6 and 6, exactly two units
    outside the cone of the tree at its height, and photos climb the tree
    in the order of the list. *)
Theorem photo_on_tree (i n : nat) (Hi : (i < n)%nat) :
  let p := Gallery.gatheredPos i n in
  - 6 <= Scene.vy p <= 6
  /\ Scene.vx p ^ 2 + Scene.vz p ^ 2 = ((3.75 - Scene.vy p / 2) + 2) ^ 2
  /\ (forall j, (i < j)%nat -> (j < n)%nat ->
        Scene.vy p < Scene.vy (Gallery.gatheredPos j n)).
Proof.
  intros p. pose proof (gallery_t_range i n Hi) as Ht.
  subst p. unfold Gallery.gatheredPos, Gallery.treeHeight, Gallery.baseRadius.
  cbv zeta. simpl Scene.vx. simpl Scene.vy. simpl Scene.vz.
  split; [lra|]. split.
  - set (th := Gallery.t i n * Gallery.loopsPerSpiral * PI * 2 + 0.5).
    pose proof (sin2_cos2 th) as E. unfold Rsqr in E.
    set (c := cos th) in *. set (sn := sin th) in *.
    set (tt := Gallery.t i n) in *. nra.
  - intros j Hij Hj. pose proof (gallery_t_increasing i j n Hij Hj). lra.
Qed.

Lemma photo_on_tree_witness :
  - 6 <= Scene.vy (Gallery.gatheredPos 0 10) <= 6.
Proof.
  apply (photo_on_tree 0 10). lia.
Defined.

End Nearest.

(** ** More on the classifier *)

Section Tracker.

Import HandTracker.
Local Open Scope R_scope.

(** The callback without a hand, on a running tracker. *)
Lemma no_hand_reset (refs : Refs) (results : Results) (now : Z) :
  active refs = true ->
  multiHandLandmarks results = None \/ multiHandLandmarks results = Some [] ->
  onResults results now refs
  = ({| active := true;
        lastLandmarks := None;
        isProcessing := false;
        lastHandPos := None;
        lastAnalysisTime := lastAnalysisTime refs |},
     Some (Some ("None"%string, None))).
Proof.
  intros Hactive Hnone.
  unfold onResults, bind, get. simpl. rewrite Hactive. simpl.
  destruct Hnone as [-> | ->]; reflexivity.
Qed.

Lemma fingersOpenCount_le a b c d : (fingersOpenCount a b c d <= 4)%nat.
Proof. destruct a, b, c, d; unfold fingersOpenCount; cbn; lia. Qed.

Lemma fingersOpenCount_all a b c d :
  fingersOpenCount a b c d = 4%nat ->
  a = true /\ b = true /\ c = true /\ d = true.
Proof.
  destruct a, b, c, d; unfold fingersOpenCount; cbn; intros H;
    try discriminate H; auto.
Qed.

(** X10: a sample of 21 landmarks is given one of four labels.  Open is given
    only when all four fingers are open, Fist only when none is, and None
    only to a hand with one, two or three open fingers. *)
Theorem label_alphabet (refs : Refs) (landmarks : list Landmark) (now : Z)
  (Hlen : List.length landmarks = 21%nat) :
  exists refs' label rotation,
    analyzeGesture landmarks now refs = (refs', Some (label, rotation))
    /\ (label = "Pinch" \/ label = "Fist" \/ label = "Open" \/ label = "None")%string
    /\ (label = "Open"%string ->
        ly (lm landmarks 8) < ly (lm landmarks 6)
        /\ ly (lm landmarks 12) < ly (lm landmarks 10)
        /\ ly (lm landmarks 16) < ly (lm landmarks 14)
        /\ ly (lm landmarks 20) < ly (lm landmarks 18))
    /\ (label = "Fist"%string -> openFingers landmarks = 0%nat)
    /\ (label = "None"%string -> (1 <= openFingers landmarks <= 3)%nat).
Proof.
  eexists. eexists. eexists.
  split; [apply analyzeGesture_sample; exact Hlen|].
  pose proof (fingersOpenCount_le (fingerOpen landmarks 8 6)
                (fingerOpen landmarks 12 10) (fingerOpen landmarks 16 14)
                (fingerOpen landmarks 20 18)) as Hle.
  fold (openFingers landmarks) in Hle.
  unfold gestureOf.
  destruct (Js.ltb (pinchDist landmarks) 0.06
            && negb (movingFast refs landmarks now)).
  - split; [auto|]. split; [|split]; intros H; discriminate H.
  - destruct (openFingers landmarks =? 0)%nat eqn:E0.
    + apply Nat.eqb_eq in E0.
      split; [auto|]. split; [|split]; intros H; try discriminate H.
      exact E0.
    + apply Nat.eqb_neq in E0.
      destruct (4 <=? openFingers landmarks)%nat eqn:E4.
      * apply Nat.leb_le in E4.
        split; [auto|]. split; [|split; intros H; discriminate H].
        intros _.
        assert (E : openFingers landmarks = 4%nat) by lia.
        apply fingersOpenCount_all in E. unfold fingerOpen in E.
        rewrite !ltb_true in E. exact E.
      * apply Nat.leb_gt in E4.
        split; [auto 6|]. split; [|split]; intros H; try discriminate H.
        lia.
Qed.

Lemma label_alphabet_witness :
  exists refs' label rotation,
    analyzeGesture restingHand 0 freshRefs = (refs', Some (label, rotation))
    /\ (label = "Pinch" \/ label = "Fist" \/ label = "Open" \/ label = "None")%string.
Proof.
  destruct (label_alphabet freshRefs restingHand 0 eq_refl)
    as (refs' & label & rotation & E & H & _).
  exists refs', label, rotation. split; [exact E|exact H].
Defined.

(** X11: with the palm landmark inside the frame, the directional signal lies
    in the square from -1.5 to 1.5, mirrored left to right: the left edge
    of the camera image gives x = 1.5, the right edge x = -1.5, the top
    edge y = -1.5. *)
Theorem directional_range (refs : Refs) (landmarks : list Landmark) (now : Z)
  (Hlen : List.length landmarks = 21%nat)
  (Hx : 0 <= lx (lm landmarks 9) <= 1)
  (Hy : 0 <= ly (lm landmarks 9) <= 1) :
  exists refs' label rotation,
    analyzeGesture landmarks now refs = (refs', Some (label, Some rotation))
    /\ -1.5 <= rot_x rotation <= 1.5
    /\ -1.5 <= rot_y rotation <= 1.5
    /\ rot_x rotation = 1.5 - 3 * lx (lm landmarks 9)
    /\ rot_y rotation = 3 * ly (lm landmarks 9) - 1.5.
Proof.
  eexists. eexists. eexists.
  split; [apply analyzeGesture_sample; exact Hlen|].
  unfold directional. simpl. repeat split; lra.
Qed.

Lemma directional_range_witness :
  exists refs' label rotation,
    analyzeGesture restingHand 0 freshRefs
    = (refs', Some (label, Some rotation))
    /\ -1.5 <= rot_x rotation <= 1.5.
Proof.
  assert (H : 0 <= lx (lm restingHand 9) <= 1) by (simpl; lra).
  assert (H' : 0 <= ly (lm restingHand 9) <= 1) by (simpl; lra).
  destruct (directional_range freshRefs restingHand 0 eq_refl H H')
    as (refs' & label & rotation & E & Hr & _).
  exists refs', label, rotation. split; [exact E|exact Hr].
Defined.

(** X12: with a palm position and a time of analysis in memory, a sample not
    later than that time is never moving fast, and a later one is moving
    fast exactly when the palm moved by more than the seconds elapsed. *)
Theorem velocity_gate (refs : Refs) (landmarks : list Landmark) (now : Z)
  (px py : R)
  (Hpos : lastHandPos refs = Some (px, py))
  (Htime : (0 < lastAnalysisTime refs)%Z) :
  let dx := lx (lm landmarks 9) - px in
  let dy := ly (lm landmarks 9) - py in
  ((now <= lastAnalysisTime refs)%Z -> movingFast refs landmarks now = false)
  /\ ((lastAnalysisTime refs < now)%Z ->
      (movingFast refs landmarks now = true <->
       IZR (now - lastAnalysisTime refs) / 1000 < sqrt (dx * dx + dy * dy))).
Proof.
  intros dx dy. unfold movingFast, palmSpeed, handSpeed.
  rewrite Hpos. rewrite (proj2 (Z.ltb_lt _ _) Htime).
  fold dx dy. set (dt := IZR (now - lastAnalysisTime refs) / 1000).
  split.
  - intros Hle.
    assert (dt <= 0).
    { subst dt. assert (IZR (now - lastAnalysisTime refs) <= 0)
        by (apply IZR_le; lia). lra. }
    rewrite (proj2 (ltb_false 0 dt)) by assumption.
    apply ltb_false. lra.
  - intros Hlt.
    assert (Hdt : 0 < dt).
    { subst dt. assert (0 < IZR (now - lastAnalysisTime refs))
        by (apply IZR_lt; lia). lra. }
    rewrite (proj2 (ltb_true 0 dt)) by assumption.
    rewrite ltb_true. set (d := sqrt (dx * dx + dy * dy)).
    assert (E : d / dt * dt = d) by (field; lra).
    split; intros H.
    + nra.
    + destruct (Rlt_dec 1 (d / dt)) as [L|L]; [exact L|exfalso].
      assert (d / dt * dt <= 1 * dt) by (apply Rmult_le_compat_r; lra).
      lra.
Qed.

Lemma velocity_gate_witness :
  movingFast trackingRefs restingHand 1000 = false.
Proof.
  apply (velocity_gate trackingRefs restingHand 1000 0.5 0.5 eq_refl);
    simpl; lia.
Defined.

(** X13: a landmark array shorter than 21 makes the classifier throw.  With
    fewer than 10 landmarks the refs are as before; from 10 on the palm
    position and the time were already stored.  The callback then neither
    reports a label nor clears the processing flag. *)
Theorem short_sample_throws (refs : Refs) (landmarks : list Landmark)
  (others : list (list Landmark)) (now : Z)
  (Hlen : (List.length landmarks < 21)%nat) :
  snd (analyzeGesture landmarks now refs) = None
  /\ ((List.length landmarks < 10)%nat ->
      fst (analyzeGesture landmarks now refs) = refs)
  /\ ((10 <= List.length landmarks)%nat ->
      lastHandPos (fst (analyzeGesture landmarks now refs))
      = Some (lx (lm landmarks 9), ly (lm landmarks 9))
      /\ lastAnalysisTime (fst (analyzeGesture landmarks now refs)) = now)
  /\ (active refs = true ->
      let out := onResults (mkResults (Some (landmarks :: others))) now refs in
      snd out = None /\ isProcessing (fst out) = isProcessing refs).
Proof.
  assert (Hon : (forall r, snd (analyzeGesture landmarks now r) = None) ->
                (forall r, isProcessing (fst (analyzeGesture landmarks now r))
                           = isProcessing r) ->
                active refs = true ->
                let out := onResults (mkResults (Some (landmarks :: others)))
                             now refs in
                snd out = None /\ isProcessing (fst out) = isProcessing refs).
  { intros Hthrow Hproc Hact. unfold onResults, bind, get, put. simpl.
    rewrite Hact. simpl.
    match goal with
    | |- context [analyzeGesture landmarks now ?r] =>
        specialize (Hthrow r); specialize (Hproc r);
        destruct (analyzeGesture landmarks now r) as [r' [e|]]
    end; simpl in *; [discriminate Hthrow|].
    split; [reflexivity|exact Hproc]. }
  do 21 (destruct landmarks as [|? landmarks];
         [ split; [reflexivity|];
           split; [intros H; simpl in H; try lia; reflexivity|];
           split; [intros H; simpl in H; try lia; split; reflexivity|];
           intros Hact; apply Hon;
           [intros r; reflexivity|intros r; reflexivity|exact Hact]
         | ]).
  simpl in Hlen. lia.
Qed.

Lemma short_sample_throws_witness :
  snd (analyzeGesture [] 0 freshRefs) = None.
Proof.
  apply (short_sample_throws freshRefs [] [] 0). simpl. lia.
Defined.

(** X14: losing the hand re-arms the pinch.  With the tracker running, gestures
    in use, the tree scattered and a photo in the list: after a callback
    without a hand, a pinching sample selects a photo again, whatever label
    was stored before and however far the palm has moved meanwhile. *)
Theorem hand_loss_rearms_pinch (refs : Refs) (app : AppState)
  (landmarks : list Landmark) (lost : Results) (t1 t2 : Z)
  (Hactive : active refs = true)
  (Hgestures : useGestures app = true)
  (Hstate : treeState app = SCATTERED)
  (Hne : photos app <> [])
  (Hlost : multiHandLandmarks lost = None \/ multiHandLandmarks lost = Some [])
  (Hlen : List.length landmarks = 21%nat)
  (Hpinch : pinchDist landmarks < 0.06) :
  let st := callback (mkResults (Some [landmarks])) t2
              (callback lost t1 (refs, app)) in
  currentGesture (snd st) = "Pinch"%string
  /\ treeState (snd st) = SCATTERED
  /\ focusedPhotoIndex (snd st)
     = Some (App.closestIndex (App.targetAngle (directional landmarks))
               (photos app))
  /\ isProcessing (fst st) = false.
Proof.
  intros st.
  pose proof (no_hand_reset refs lost t1 Hactive Hlost) as E1.
  set (refs1 := {| active := true;
                   lastLandmarks := None;
                   isProcessing := false;
                   lastHandPos := None;
                   lastAnalysisTime := lastAnalysisTime refs |}) in *.
  assert (S1 : callback lost t1 (refs, app)
               = (refs1, App.gestureUpdater "None" None app)).
  { unfold callback. simpl fst. rewrite E1. simpl.
    unfold App.handleGestureUpdate. now rewrite Hgestures. }
  set (app1 := App.gestureUpdater "None" None app) in *.
  set (refs2 := {| active := true;
                   lastLandmarks := Some [landmarks];
                   isProcessing := false;
                   lastHandPos := None;
                   lastAnalysisTime := lastAnalysisTime refs |}).
  assert (Hfast : movingFast refs2 landmarks t2 = false).
  { unfold movingFast, palmSpeed.
    rewrite handSpeed_without_position by reflexivity.
    apply ltb_false. lra. }
  assert (E2 : onResults (mkResults (Some [landmarks])) t2 refs1
               = ({| active := true;
                     lastLandmarks := Some [landmarks];
                     isProcessing := false;
                     lastHandPos := Some (lx (lm landmarks 9), ly (lm landmarks 9));
                     lastAnalysisTime := t2 |},
                  Some (Some ("Pinch"%string, Some (directional landmarks))))).
  { unfold onResults, bind, get, put. simpl.
    fold refs2. rewrite (analyzeGesture_sample refs2 landmarks t2 Hlen).
    rewrite Hfast, (gestureOf_pinch _ _ _ Hpinch eq_refl).
    reflexivity. }
  assert (S2 : st = (fst (onResults (mkResults (Some [landmarks])) t2 refs1),
                     App.gestureUpdater "Pinch" (Some (directional landmarks)) app1)).
  { subst st. rewrite S1. unfold callback. simpl fst. rewrite E2. simpl.
    unfold App.handleGestureUpdate. subst app1.
    assert (G : useGestures (App.gestureUpdater "None" None app) = true)
      by exact Hgestures.
    now rewrite G. }
  rewrite S2, E2. simpl fst. simpl snd.
  destruct (pinch_updater_cases (Some (directional landmarks)) app1)
    as (Ht & Hyes & _).
  assert (Hsel : pinchSelects "Pinch" app1 = true).
  { apply pinchSelects_spec. subst app1. repeat split; auto. discriminate. }
  split; [apply gestureUpdater_label|]. split; [rewrite Ht; exact Hstate|].
  split; [rewrite (Hyes Hsel); reflexivity|reflexivity].
Qed.

Lemma hand_loss_rearms_pinch_witness :
  currentGesture
    (snd (callback (mkResults (Some [restingHand])) 2100
            (callback (mkResults None) 2000 (trackingRefs, galleryOfTen))))
  = "Pinch"%string.
Proof.
  assert (Hne : photos galleryOfTen <> []) by discriminate.
  assert (Hp : pinchDist restingHand < 0.06).
  { unfold pinchDist, pinchDistance. simpl.
    match goal with |- sqrt ?e < _ => replace e with 0 by ring end.
    rewrite sqrt_0. lra. }
  apply (hand_loss_rearms_pinch trackingRefs galleryOfTen restingHand
           (mkResults None) 2000 2100 eq_refl eq_refl eq_refl Hne
           (or_introl eq_refl) eq_refl Hp).
Defined.

End Tracker.

(** ** The inference loop *)

Section Loop.

Import HandTracker Inference.

(** A run of [loop] either leaves everything as it is, or sends the frame:
    then the tracker is running, nothing was in flight and the last send
    is more than 66 ms old. *)
Lemma loop_cases (f : Frame) (s : LoopRefs) :
  loop f s = (s, false)
  \/ (loop f s = ({| refs := setProcessing true (refs s);
                     lastInferenceTime := now f |}, true)
      /\ active (refs s) = true
      /\ isProcessing (refs s) = false
      /\ (66 < now f - lastInferenceTime s)%Z
      /\ (0 < videoWidth f)%Z /\ (0 < videoHeight f)%Z).
Proof.
  unfold loop.
  destruct (active (refs s)); simpl; [|now left].
  destruct (hasVideo f && hasCanvas f && (2 <=? readyState f)%Z); [|now left].
  destruct (hasContext f); [|now left].
  destruct (66 <? now f - lastInferenceTime s)%Z eqn:E1; simpl; [|now left].
  destruct (isProcessing (refs s)); simpl; [now left|].
  destruct (0 <? videoWidth f)%Z eqn:E2; simpl; [|now left].
  destruct (0 <? videoHeight f)%Z eqn:E3; simpl; [|now left].
  right. repeat split; auto; now apply Z.ltb_lt.
Qed.

Lemma run_lastInferenceTime_step (s : LoopRefs) (ev : Event) :
  sentAt (snd (step s ev)) = None ->
  lastInferenceTime (fst (step s ev)) = lastInferenceTime s.
Proof.
  destruct ev as [f|r time|e]; simpl.
  - destruct (loop_cases f s) as [E|(E & _)]; rewrite E; simpl;
      [reflexivity|discriminate].
  - destruct (onResults r time (refs s)); reflexivity.
  - intros _. unfold onSendError.
    destruct (includes e "memory" || includes e "Aborted"); reflexivity.
Qed.

(** X15: whatever happens to the tracker, in whatever order and at whatever
    clock readings, two frames sent to the detector one after the other
    are more than 66 ms apart, and the first is more than 66 ms after the
    send remembered at the start. *)
Theorem sends_are_spaced (evs : list Event) (s : LoopRefs) :
  spacedFrom (lastInferenceTime s) (sendTimes (snd (run evs s))).
Proof.
  revert s. induction evs as [|ev evs IH]; intros s; simpl; [exact I|].
  destruct (step s ev) as [s1 o] eqn:E1.
  specialize (IH s1). destruct (run evs s1) as [s2 os] eqn:E2.
  simpl in *. unfold sendTimes in *. simpl.
  destruct (sentAt o) as [time|] eqn:Es.
  - destruct ev as [f|r time'|e]; simpl in E1.
    + destruct (loop_cases f s) as [E|(E & _ & _ & Hgap & _)];
        rewrite E in E1; injection E1 as <- <-; simpl in Es;
        [discriminate Es|].
      injection Es as <-. simpl in *. split; [exact Hgap|exact IH].
    + destruct (onResults r time' (refs s)). injection E1 as <- <-.
      discriminate Es.
    + injection E1 as <- <-. discriminate Es.
  - simpl.
    pose proof (run_lastInferenceTime_step s ev) as K.
    rewrite E1 in K. simpl in K. rewrite <- (K Es). exact IH.
Qed.

Lemma tick_while_processing (f : Frame) (s : LoopRefs) :
  isProcessing (refs s) = true -> loop f s = (s, false).
Proof.
  intros H. destruct (loop_cases f s) as [E|(_ & _ & Hp & _)];
    [exact E|congruence].
Qed.

(** X16: at most one inference is in flight: once a frame is sent, no later
    animation frame sends another one, or changes anything, until a result
    or an error comes back. *)
Theorem one_inference_in_flight (f : Frame) (s : LoopRefs) (fs : list Frame)
  (Hsent : snd (loop f s) = true) :
  let s1 := fst (loop f s) in
  isProcessing (refs s) = false
  /\ isProcessing (refs s1) = true
  /\ run (map Tick fs) s1
     = (s1, map (fun _ => mkOutput None None) fs).
Proof.
  intros s1.
  destruct (loop_cases f s) as [E|(E & _ & Hp & _)];
    [rewrite E in Hsent; discriminate Hsent|].
  assert (H1 : isProcessing (refs s1) = true) by (subst s1; now rewrite E).
  split; [exact Hp|]. split; [exact H1|].
  clearbody s1. clear E Hsent.
  induction fs as [|g fs IH]; simpl; [reflexivity|].
  rewrite (tick_while_processing g s1 H1), IH. reflexivity.
Qed.

Lemma one_inference_in_flight_witness :
  run (map Tick [readyFrame 1100; readyFrame 1200])
    (fst (loop (readyFrame 1000) idleLoop))
  = (fst (loop (readyFrame 1000) idleLoop),
     [mkOutput None None; mkOutput None None]).
Proof.
  apply (one_inference_in_flight (readyFrame 1000) idleLoop
           [readyFrame 1100; readyFrame 1200] eq_refl).
Defined.

Lemma step_stopped (s0 s : LoopRefs) (ev : Event) :
  stoppedLike s0 s ->
  stoppedLike s0 (fst (step s ev)) /\ snd (step s ev) = mkOutput None None.
Proof.
  intros (Ha & Hp & Ht & Hi). destruct ev as [f|r time|e]; simpl.
  - unfold loop. rewrite Ha. simpl. repeat split; assumption.
  - unfold onResults, bind, get, HandTracker.ret. rewrite Ha. simpl.
    repeat split; assumption.
  - unfold onSendError.
    destruct (includes e "memory" || includes e "Aborted"); simpl;
      repeat split; assumption.
Qed.

(** X17: an error of the detector that mentions memory or an abort stops the
    tracker for good: from then on no frame is sent and no label is
    reported, whatever happens, and the memory of the classifier stays as
    the error found it. *)
Theorem fatal_error_stops_tracker (e : string) (s : LoopRefs)
  (evs : list Event)
  (Hfatal : includes e "memory" = true \/ includes e "Aborted" = true) :
  let s1 := onSendError e s in
  active (refs s1) = false
  /\ stoppedLike s (fst (run evs s1))
  /\ snd (run evs s1) = map (fun _ => mkOutput None None) evs.
Proof.
  intros s1.
  assert (H1 : stoppedLike s s1).
  { subst s1. unfold onSendError.
    replace (includes e "memory" || includes e "Aborted") with true
      by (symmetry; apply orb_true_iff; exact Hfatal).
    repeat split. }
  split; [apply H1|].
  clearbody s1. revert s1 H1.
  induction evs as [|ev evs IH]; intros s1 H1; simpl; [split; auto|].
  destruct (step_stopped s s1 ev H1) as [H2 Ho].
  destruct (step s1 ev) as [s2 o]. simpl in H2, Ho. subst o.
  destruct (IH s2 H2) as [H3 Hos].
  destruct (run evs s2) as [s3 os]. simpl in *. split; [exact H3|].
  now rewrite Hos.
Qed.

Lemma fatal_error_stops_tracker_witness :
  active (refs (onSendError "RuntimeError: memory access out of bounds"
                  idleLoop)) = false.
Proof.
  apply (fatal_error_stops_tracker
           "RuntimeError: memory access out of bounds" idleLoop []).
  left. reflexivity.
Defined.

(** X18: any other error, and any result without a hand, frees the loop: on a
    running tracker the next frame that is ready and more than 66 ms after
    the last send is sent. *)
Theorem loop_resumes (ev : Event) (s : LoopRefs) (time : Z)
  (Hactive : active (refs s) = true)
  (Hev : (exists e, ev = SendError e
                    /\ includes e "memory" = false
                    /\ includes e "Aborted" = false)
         \/ (exists r t, ev = Result r t
                         /\ (multiHandLandmarks r = None
                             \/ multiHandLandmarks r = Some [])))
  (Hgap : (66 < time - lastInferenceTime s)%Z) :
  let s1 := fst (step s ev) in
  isProcessing (refs s1) = false
  /\ loop (readyFrame time) s1
     = ({| refs := setProcessing true (refs s1); lastInferenceTime := time |},
        true).
Proof.
  intros s1.
  assert (H : active (refs s1) = true /\ isProcessing (refs s1) = false
              /\ lastInferenceTime s1 = lastInferenceTime s).
  { subst s1. destruct Hev as [(e & -> & E1 & E2)|(r & t & -> & Hr)]; simpl.
    - unfold onSendError. rewrite E1, E2. simpl. auto.
    - rewrite (no_hand_reset (refs s) r t Hactive Hr). simpl. auto. }
  destruct H as (Ha & Hp & Hl). split; [exact Hp|].
  unfold loop. rewrite Ha, Hp, Hl. simpl.
  now rewrite (proj2 (Z.ltb_lt _ _) Hgap).
Qed.

Lemma loop_resumes_witness :
  isProcessing (refs (fst (step idleLoop (SendError "timeout")))) = false.
Proof.
  apply (loop_resumes (SendError "timeout") idleLoop 100 eq_refl).
  - left. exists "timeout"%string. repeat split.
  - simpl. lia.
Defined.

End Loop.

(** ** The camera under gesture control *)

Section CameraControl.

Import Scene Camera.
Local Open Scope R_scope.

Lemma wrapDown_enough :
  forall fuel d,
    d <= PI + 2 * PI * INR fuel ->
    exists k,
      wrapDown fuel d = Some (d - 2 * PI * INR k)
      /\ d - 2 * PI * INR k <= PI
      /\ (k = 0%nat \/ - PI < d - 2 * PI * INR k).
Proof.
  pose proof PI_RGT_0 as Hpi.
  induction fuel as [|fuel IH]; intros d Hd; simpl wrapDown.
  - simpl INR in Hd. rewrite (proj2 (ltb_false PI d)) by lra.
    exists 0%nat. simpl INR. split; [f_equal; ring|]. split; [lra|now left].
  - destruct (Js.ltb PI d) eqn:E.
    + apply ltb_true in E. rewrite S_INR in Hd.
      destruct (IH (d - PI * 2)) as (k & Ek & Hk & Hlow); [lra|].
      exists (S k). rewrite S_INR, Ek.
      split; [f_equal; ring|]. split; [lra|].
      right. destruct Hlow as [->|Hlow]; simpl INR in *; lra.
    + apply ltb_false in E. exists 0%nat. simpl INR.
      split; [f_equal; ring|]. split; [lra|now left].
Qed.

Lemma wrapUp_enough :
  forall fuel d,
    - PI - 2 * PI * INR fuel <= d ->
    exists k,
      wrapUp fuel d = Some (d + 2 * PI * INR k)
      /\ - PI <= d + 2 * PI * INR k
      /\ (k = 0%nat \/ d + 2 * PI * INR k < PI).
Proof.
  pose proof PI_RGT_0 as Hpi.
  induction fuel as [|fuel IH]; intros d Hd; simpl wrapUp.
  - simpl INR in Hd. rewrite (proj2 (ltb_false d (- PI))) by lra.
    exists 0%nat. simpl INR. split; [f_equal; ring|]. split; [lra|now left].
  - destruct (Js.ltb d (- PI)) eqn:E.
    + apply ltb_true in E. rewrite S_INR in Hd.
      destruct (IH (d + PI * 2)) as (k & Ek & Hk & Hup); [lra|].
      exists (S k). rewrite S_INR, Ek.
      split; [f_equal; ring|]. split; [lra|].
      right. destruct Hup as [->|Hup]; simpl INR in *; lra.
    + apply ltb_false in E. exists 0%nat. simpl INR.
      split; [f_equal; ring|]. split; [lra|now left].
Qed.

(** Both loops, with fuel for the distance to cover: the result lies
    within half a turn of 0 and differs from the start by full turns. *)
Lemma wrap_enough fuel d :
  - PI - 2 * PI * INR fuel <= d <= PI + 2 * PI * INR fuel ->
  exists d1 d2 (m : Z),
    wrapDown fuel d = Some d1 /\ wrapUp fuel d1 = Some d2
    /\ - PI <= d2 <= PI /\ d2 = d + 2 * PI * IZR m.
Proof.
  pose proof PI_RGT_0 as Hpi. pose proof (pos_INR fuel) as Hf.
  intros [Hlo Hhi].
  destruct (wrapDown_enough fuel d Hhi) as (k & Ek & Hk & Hlow).
  destruct (wrapUp_enough fuel (d - 2 * PI * INR k)) as (j & Ej & Hj & Hup).
  { destruct Hlow as [->|Hlow]; simpl INR in *; nra. }
  exists (d - 2 * PI * INR k), (d - 2 * PI * INR k + 2 * PI * INR j),
    (Z.of_nat j - Z.of_nat k)%Z.
  split; [exact Ek|]. split; [exact Ej|]. split.
  - split; [exact Hj|].
    destruct Hup as [->|Hup]; simpl INR in *; lra.
  - rewrite minus_IZR, <- !INR_IZR_INZ. ring.
Qed.

Lemma fuel_for d :
  exists n, forall fuel, (n <= fuel)%nat ->
    - PI - 2 * PI * INR fuel <= d <= PI + 2 * PI * INR fuel.
Proof.
  pose proof PI2_1 as Hpi.
  exists (Z.to_nat (up (Rabs d))). intros fuel Hfuel.
  destruct (archimed (Rabs d)) as [Hup _].
  pose proof (Rabs_pos d) as Hd.
  assert (Hz : (0 < up (Rabs d))%Z) by (apply lt_IZR; lra).
  assert (Hn : Rabs d < INR fuel).
  { apply Rlt_le_trans with (INR (Z.to_nat (up (Rabs d)))).
    - rewrite INR_IZR_INZ, Z2Nat.id by lia. exact Hup.
    - apply le_INR. exact Hfuel. }
  assert (Hd' : - Rabs d <= d <= Rabs d).
  { unfold Rabs. destruct (Rcase_abs d); lra. }
  nra.
Qed.

Lemma useFrame_steered fuel handRotation rig :
  (let d := rot_x handRotation * 3
            - Js.atan2 (vx (position rig)) (vz (position rig)) in
   - PI - 2 * PI * INR fuel <= d <= PI + 2 * PI * INR fuel) ->
  exists rig',
    useFrame fuel true handRotation rig = Some rig'
    /\ steered handRotation rig rig'.
Proof.
  intros Hd. cbv zeta in Hd.
  destruct (wrap_enough fuel _ Hd) as (d1 & d2 & m & E1 & E2 & Hr & Hm).
  eexists. split.
  - unfold useFrame. cbv zeta. simpl negb. cbv iota.
    replace (rot_x handRotation * 3.0) with (rot_x handRotation * 3) by lra.
    rewrite E1, E2. reflexivity.
  - exists d2, m. split; [exact Hr|]. split; [exact Hm|reflexivity].
Qed.

Lemma steered_facts handRotation rig rig' :
  steered handRotation rig rig' ->
  currentRadius rig' = currentRadius rig
  /\ vx (position rig') ^ 2 + vz (position rig') ^ 2 = currentRadius rig ^ 2
  /\ vy (position rig') - (- rot_y handRotation * 15 + 6)
     = 0.9 * (vy (position rig) - (- rot_y handRotation * 15 + 6)).
Proof.
  intros (d & m & _ & _ & ->). simpl.
  split; [reflexivity|]. split; [|lra].
  match goal with |- context [sin ?a] =>
    pose proof (sin2_cos2 a) as E; unfold Rsqr in E;
    set (sa := sin a) in *; set (ca := cos a) in * end.
  nra.
Qed.

(** X19: under gesture control a frame always completes: both loops stop.  The
    camera then turns a tenth of the shorter way, at most a twentieth of a
    turn, toward the yaw the hand asks for, stays on its circle around the
    tree, and closes a tenth of its distance to the height asked for. *)
Theorem camera_frame_completes (handRotation : Rotation) (rig : Rig) :
  exists n, forall fuel, (n <= fuel)%nat ->
    exists rig',
      useFrame fuel true handRotation rig = Some rig'
      /\ steered handRotation rig rig'
      /\ currentRadius rig' = currentRadius rig
      /\ vx (position rig') ^ 2 + vz (position rig') ^ 2
         = currentRadius rig ^ 2
      /\ vy (position rig') - (- rot_y handRotation * 15 + 6)
         = 0.9 * (vy (position rig) - (- rot_y handRotation * 15 + 6)).
Proof.
  destruct (fuel_for (rot_x handRotation * 3
                      - Js.atan2 (vx (position rig)) (vz (position rig))))
    as (n & Hn).
  exists n. intros fuel Hfuel.
  destruct (useFrame_steered fuel handRotation rig (Hn fuel Hfuel))
    as (rig' & E & Hs).
  exists rig'. split; [exact E|]. split; [exact Hs|].
  now apply steered_facts.
Qed.

(** X20: with the directional signal in its range, from -1.5 to 1.5, each loop
    runs at most once. *)
Theorem camera_frame_one_round (handRotation : Rotation) (rig : Rig)
  (Hx : -1.5 <= rot_x handRotation <= 1.5) :
  exists rig',
    useFrame 1 true handRotation rig = Some rig'
    /\ steered handRotation rig rig'.
Proof.
  apply useFrame_steered. cbv zeta. simpl INR.
  pose proof (atan2_range (vx (position rig)) (vz (position rig))) as Ha.
  pose proof PI2_3_2. lra.
Qed.

Lemma camera_frame_one_round_witness :
  exists rig',
    useFrame 1 true (mkRotation 0 0) initialRig = Some rig'.
Proof.
  assert (Hx : -1.5 <= rot_x (mkRotation 0 0) <= 1.5) by (simpl; lra).
  destruct (camera_frame_one_round (mkRotation 0 0) initialRig Hx)
    as (rig' & E & _).
  exists rig'. exact E.
Defined.

(** X21: without gesture control a frame leaves the camera where it is and
    remembers its distance from the axis of the tree, but never less than
    5; so when the gestures take over, a camera at least 5 away keeps its
    distance from the axis. *)
Theorem orbit_frame_measures_radius (fuel : nat) (handRotation : Rotation)
  (rig : Rig) :
  exists rig',
    useFrame fuel false handRotation rig = Some rig'
    /\ position rig' = position rig
    /\ 5 <= currentRadius rig'
    /\ vx (position rig) ^ 2 + vz (position rig) ^ 2 <= currentRadius rig' ^ 2
    /\ (25 <= vx (position rig) ^ 2 + vz (position rig) ^ 2 ->
        currentRadius rig' ^ 2
        = vx (position rig) ^ 2 + vz (position rig) ^ 2).
Proof.
  eexists. split; [reflexivity|]. simpl.
  set (x := vx (position rig)). set (z := vz (position rig)).
  assert (H0 : 0 <= x * x + z * z) by nra.
  pose proof (sqrt_sqrt _ H0) as Hs. pose proof (sqrt_pos (x * x + z * z)) as Hp.
  set (d := sqrt (x * x + z * z)) in *.
  split; [reflexivity|]. split; [apply Rmax_r|].
  unfold Rmax. destruct (Rle_dec d 5); split; intros; nra.
Qed.

End CameraControl.

(** ** The shape of the generated particles *)

Section Shapes.

Import Scene.
Local Open Scope R_scope.

Variable rng : nat -> R.
Hypothesis rng_unit : forall n, 0 <= rng n < 1.

Lemma yields_random_unit : yields (random rng) (fun r => 0 <= r < 1).
Proof. intros p. exists (rng p), (S p). split; [reflexivity|apply rng_unit]. Qed.

Lemma on_circle a r : (cos a * r) ^ 2 + (sin a * r) ^ 2 = r ^ 2.
Proof.
  pose proof (sin2_cos2 a) as E. unfold Rsqr in E.
  set (c := cos a) in *. set (sn := sin a) in *. nra.
Qed.

Ltac draw r H := eapply yields_bind; [apply yields_random_unit|intros r H].

Lemma coreBranch_shape :
  yields (coreBranch rng)
    (fun g => let '(pos, size, bright, ty) := g in
              ty = core /\ gatheredShapeOf core pos
              /\ 0.4 <= size < 0.8 /\ bright = 0.4).
Proof.
  unfold coreBranch. draw r1 H1. draw r2 H2. draw r3 H3. draw r4 H4.
  cbv beta in *.
  apply yields_ret. split; [reflexivity|]. split; [|split; [lra|reflexivity]].
  unfold gatheredShapeOf, treeHeight, baseRadius. cbv zeta. cbn [vx vy vz].
  split; [lra|]. rewrite on_circle.
  assert (Hs : 0 <= sqrt r2 <= 1).
  { split; [apply sqrt_pos|]. rewrite <- sqrt_1. apply sqrt_le_1_alt. lra. }
  set (q := sqrt r2) in *.
  set (coneR := (1 - ((r1 - 0.5) * 15 + 15 / 2) / 15) * 7.5).
  assert (Hc : coneR = 3.75 - (r1 - 0.5) * 15 / 2) by (subst coneR; lra).
  assert (Hc0 : 0 <= coneR) by (rewrite Hc; lra).
  rewrite <- Hc. clearbody coneR q.
  assert (Hq : 0 <= q * coneR <= coneR) by nra.
  set (a := q * coneR) in *. clearbody a.
  assert (Ha : a * a <= coneR * coneR) by nra.
  nra.
Qed.

Lemma spiralBranch_shape i :
  yields (spiralBranch rng i)
    (fun g => let '(pos, size, bright, ty) := g in
              gatheredShapeOf ty pos
              /\ 0.3 <= size <= 2.5
              /\ bright = match ty with
                          | core => 0.4
                          | ribbon => 1.5
                          | ornament => 2.0
                          | structure => 0.7
                          end).
Proof.
  unfold spiralBranch. draw tBase H1. cbv beta in *.
  unfold gatheredShapeOf, treeHeight, baseRadius.
  destruct (i mod 30 =? 0)%nat; cbn [negb andb].
  - draw r1 H2. apply yields_ret. cbv zeta. cbn [vx vy vz].
    rewrite on_circle. repeat split; try lra; try (f_equal; lra).
  - destruct (i mod 6 =? 0)%nat.
    + apply yields_ret. cbv zeta. cbn [vx vy vz].
      rewrite on_circle. repeat split; try lra; try (f_equal; lra).
    + draw r1 H2. draw r2 H3. draw r3 H4. draw r4 H5. cbv beta in *.
      apply yields_ret. cbv zeta. cbn [vx vy vz].
      rewrite on_circle.
      set (r := Rmax 0.2 ((1 - tBase) * 7.5 + (r1 - 0.5) * 1.8)).
      assert (Hr : 0.2 <= r <= 8.4).
      { subst r. unfold Rmax. destruct (Rle_dec _ _); lra. }
      repeat split; try lra; nra.
Qed.

Lemma scatter_shape b size :
  0.3 <= size <= 2.5 ->
  yields (scatter rng b size)
    (fun s => scatteredShapeOf b (fst s) /\ 0.3 <= snd s <= 3.75).
Proof.
  intros Hsize. unfold scatter. destruct b.
  - eapply yields_bind with (Q := fun v => inCube rng (heartFallback v)).
    + intros p. destruct (heartSearch_stops rng p) as (v & p' & E & Hinv & _).
      exists v, p'. split; [exact E|].
      now apply (heartFallback_point rng v).
    + intros v Hcube. apply yields_ret.
      destruct (Hcube rng_unit) as (Hx & Hy & Hz).
      unfold scatteredShapeOf. cbv zeta. cbn [vx vy vz fst snd].
      repeat split; lra.
  - draw r1 H1. draw r2 H2. draw r3 H3. cbv beta in *.
    apply yields_ret. unfold scatteredShapeOf. cbv zeta.
    cbn [vx vy vz fst snd].
    replace ((8 + r1 * 42) * cos (r2 * PI * 2)) with
      (cos (r2 * PI * 2) * (8 + r1 * 42)) by ring.
    replace ((8 + r1 * 42) * sin (r2 * PI * 2)) with
      (sin (r2 * PI * 2) * (8 + r1 * 42)) by ring.
    rewrite on_circle. repeat split; try lra; nra.
Qed.

Lemma particle_shape count i : yields (particle rng count i) wellShaped.
Proof.
  unfold particle. draw r1 H1. draw r2 H2. cbv beta in *.
  pose proof PI_RGT_0 as Hpi.
  eapply yields_bind with
    (Q := fun g => let '(pos, size, bright, ty) := g in
                   gatheredShapeOf ty pos
                   /\ 0.3 <= size <= 2.5
                   /\ bright = match ty with
                               | core => 0.4
                               | ribbon => 1.5
                               | ornament => 2.0
                               | structure => 0.7
                               end).
  - destruct (i <? coreCount count)%nat.
    + eapply yields_weaken; [apply coreBranch_shape|].
      intros [[[pos size] bright] ty] (-> & Hg & Hs & ->).
      split; [exact Hg|]. split; [lra|reflexivity].
    + apply spiralBranch_shape.
  - intros [[[pos size] bright] ty] (Hg & Hs & Hb).
    draw r3 H3.
    eapply yields_bind; [apply (scatter_shape (Js.ltb r3 0.6) size Hs)|].
    intros [spos size'] [Hsc Hs']. cbn [fst snd] in *.
    draw r4 H4. draw r5 H5. cbv beta in *.
    apply yields_ret. unfold wellShaped, animationRanges. simpl.
    split; [exact Hg|]. split; [exact Hsc|].
    repeat split; try lra; try nra; try exact Hb.
Qed.

Lemma particlesFrom_shape count :
  forall todo i temp,
    Forall wellShaped temp ->
    yields (particlesFrom rng count todo i temp) (Forall wellShaped).
Proof.
  induction todo as [|todo IH]; intros i temp Htemp; simpl.
  - now apply yields_ret.
  - eapply yields_bind; [apply particle_shape|].
    intros q Hq. apply IH. apply Forall_app. split; [exact Htemp|].
    constructor; [exact Hq|constructor].
Qed.

Lemma particles_shape count : yields (particles rng count) (Forall wellShaped).
Proof. apply particlesFrom_shape. constructor. Qed.

(** X22: with random numbers in [0, 1), every generated particle has its
    place on the tree by its type: core particles fill the inner 40% of
    the cone, ribbon and ornament particles lie on the cone moved out by
    0.1 and 0.4, and structure particles stay between 0.2 and 8.4 from the
    axis. *)
Theorem tree_silhouette (count p : nat) :
  exists ps p',
    particles rng count p = Some (ps, p')
    /\ Forall (fun q => gatheredShapeOf (type q) (gatheredPos q)) ps.
Proof.
  destruct (particles_shape count p) as (ps & p' & E & H).
  exists ps, p'. split; [exact E|].
  eapply Forall_impl; [|exact H]. intros q Hq. apply Hq.
Qed.

(** X23: with random numbers in [0, 1), a heart member scatters into the box
    of the heart, within 1.8 of the axis on each side, and every other
    particle into the shell between 8 and 50 from the axis: the two never
    mix. *)
Theorem scatter_regions (count p : nat) :
  exists ps p',
    particles rng count p = Some (ps, p')
    /\ Forall (fun q => scatteredShapeOf (isHeart q) (scatteredPos q)) ps
    /\ Forall (fun q =>
                 let d2 := vx (scatteredPos q) ^ 2 + vz (scatteredPos q) ^ 2 in
                 if isHeart q then d2 <= 6.48 else 64 <= d2) ps.
Proof.
  destruct (particles_shape count p) as (ps & p' & E & H).
  exists ps, p'. split; [exact E|]. split.
  - eapply Forall_impl; [|exact H]. intros q Hq. apply Hq.
  - eapply Forall_impl; [|exact H]. intros q (_ & Hq & _).
    unfold scatteredShapeOf in Hq. cbv zeta in *.
    destruct (isHeart q); [|lra].
    destruct Hq as (Hx & _ & Hz).
    set (x := vx (scatteredPos q)) in *. set (z := vz (scatteredPos q)) in *.
    nra.
Qed.

(** X24: with random numbers in [0, 1), every particle moves by between 5% and
    15% of its remaining way per frame, has a size scale between 0.3 and
    3.75, and has the brightness of its type. *)
Theorem animation_ranges (count p : nat) :
  exists ps p',
    particles rng count p = Some (ps, p')
    /\ Forall animationRanges ps.
Proof.
  destruct (particles_shape count p) as (ps & p' & E & H).
  exists ps, p'. split; [exact E|].
  eapply Forall_impl; [|exact H]. intros q Hq. apply Hq.
Qed.

End Shapes.

Lemma zeroStream_unit : forall n, (0 <= zeroStream n < 1)%R.
Proof. intros n. unfold zeroStream. lra. Qed.

Lemma tree_silhouette_witness :
  exists ps p',
    Scene.particles zeroStream 2 0 = Some (ps, p')
    /\ Forall (fun q => gatheredShapeOf (Scene.type q) (Scene.gatheredPos q)) ps.
Proof. apply (tree_silhouette zeroStream zeroStream_unit 2 0). Defined.

Lemma scatter_regions_witness :
  exists ps p',
    Scene.particles zeroStream 2 0 = Some (ps, p')
    /\ Forall (fun q => scatteredShapeOf (Scene.isHeart q) (Scene.scatteredPos q))
         ps.
Proof.
  destruct (scatter_regions zeroStream zeroStream_unit 2 0)
    as (ps & p' & E & H & _).
  exists ps, p'. split; [exact E|exact H].
Defined.

Lemma animation_ranges_witness :
  exists ps p',
    Scene.particles zeroStream 2 0 = Some (ps, p')
    /\ Forall animationRanges ps.
Proof. apply (animation_ranges zeroStream zeroStream_unit 2 0). Defined.

(** ** Per-frame scale and colour *)

Section Frames.

Import Scene Twinkle.
Local Open Scope R_scope.

Lemma twinkle_bound ts q time : -0.5 <= twinkle ts q time <= 0.5.
Proof.
  unfold twinkle.
  destruct (TreeState_eqb ts GATHERED).
  - destruct (type q);
      match goal with |- _ <= sin ?a * _ <= _ => pose proof (SIN_bound a) end;
      lra.
  - destruct (isHeart q); [|lra].
    match goal with |- _ <= sin ?a * _ <= _ => pose proof (SIN_bound a) end.
    lra.
Qed.

(** X25: for a positive particle size and size scale, the rendered scale of a
    particle is positive at every time and stays within 10% of its base,
    which is the full size on the gathered tree and 70% of it otherwise.
    The floating offset is at most 0.05, and none off the tree. *)
Theorem scale_stays_near_base (size : R) (ts : TreeState) (q : Particle)
  (time : R) (Hsize : 0 < size) (Hscale : 0 < sizeScale q) :
  let base := size * sizeScale q * stateScale ts in
  0 < base
  /\ 0.9 * base <= finalScale size ts q time <= 1.1 * base
  /\ -0.05 <= hoverY ts q time <= 0.05
  /\ (ts <> GATHERED -> hoverY ts q time = 0).
Proof.
  intros base. pose proof (twinkle_bound ts q time) as Ht.
  assert (Hst : 0.7 <= stateScale ts <= 1)
    by (unfold stateScale; destruct (TreeState_eqb ts GATHERED); lra).
  assert (Hb : 0 < base) by (subst base; apply Rmult_lt_0_compat; nra).
  split; [exact Hb|]. split; [|split].
  - unfold finalScale. fold base. set (tw := twinkle ts q time) in *. nra.
  - unfold hoverY. destruct (TreeState_eqb ts GATHERED); [|lra].
    match goal with |- _ <= sin ?a * _ <= _ => pose proof (SIN_bound a) end.
    lra.
  - intros Hne. unfold hoverY.
    destruct (TreeState_eqb ts GATHERED) eqn:E; [|reflexivity].
    apply TreeState_eqb_eq in E. contradiction.
Qed.

Lemma scale_stays_near_base_witness :
  0 < finalScale 0.06 GATHERED restingParticle 0.
Proof.
  assert (H1 : 0 < 0.06) by lra.
  assert (H2 : 0 < sizeScale restingParticle) by (simpl; lra).
  destruct (scale_stays_near_base 0.06 GATHERED restingParticle 0 H1 H2)
    as (Hb & [Hlo _] & _).
  lra.
Defined.

(** X26: for a positive brightness the colour of a particle is never scaled to
    zero or below.  A heart member of the scattered tree takes the
    tertiary tint whatever its type, at 1.3 to 1.7 times the brightness; a
    core particle otherwise is scaled by 0.8 whatever the brightness. *)
Theorem colour_stays_lit (brightness : R) (ts : TreeState) (q : Particle)
  (time : R) (Hbright : 0 < brightness) :
  0 < snd (color brightness ts q time)
  /\ (ts = SCATTERED -> isHeart q = true ->
      fst (color brightness ts q time) = colorTertiary
      /\ 1.3 * brightness <= snd (color brightness ts q time)
         <= 1.7 * brightness)
  /\ (type q = core -> (ts <> SCATTERED \/ isHeart q = false) ->
      color brightness ts q time = (colorPrimary, 0.8))
  /\ (type q <> core ->
      0.6 * brightness <= snd (color brightness ts q time)).
Proof.
  assert (Htw : forall ts', -0.5 <= twinkle ts' q time <= 0.5)
    by (intros; apply twinkle_bound).
  assert (Hfine : forall ts',
             (type q = ribbon -> -0.3 <= twinkle ts' q time <= 0.3)
             /\ (type q = structure -> -0.2 <= twinkle ts' q time <= 0.2)
             /\ (TreeState_eqb ts' GATHERED = false ->
                 -0.2 <= twinkle ts' q time <= 0.2)).
  { intros ts'. unfold twinkle.
    destruct (TreeState_eqb ts' GATHERED).
    - split; [|split]; intros H; try discriminate H; rewrite H;
        match goal with |- _ <= sin ?a * _ <= _ => pose proof (SIN_bound a) end;
        lra.
    - destruct (isHeart q);
        [match goal with |- context [sin ?a] => pose proof (SIN_bound a) end|];
        (split; [|split]); intros; lra. }
  destruct (Hfine ts) as (Hrib & Hstr & Hoff). specialize (Htw ts).
  unfold color. cbv zeta.
  destruct (TreeState_eqb ts SCATTERED) eqn:Es.
  - apply TreeState_eqb_eq in Es. subst ts.
    specialize (Hoff eq_refl).
    destruct (isHeart q) eqn:Eh; cbn [andb fst snd].
    + split; [nra|]. split; [intros _ _; split; [reflexivity|nra]|].
      split; [intros _ [H|H]; congruence|]. intros _. nra.
    + destruct (type q) eqn:Et; cbn [fst snd];
        (split; [try nra; lra|]);
        (split; [intros _ H; discriminate H|]);
        (split; [intros H; try discriminate H; reflexivity|]);
        intros H; try congruence; nra.
  - cbn [andb].
    destruct (type q) eqn:Et; cbn [fst snd];
      try specialize (Hrib eq_refl); try specialize (Hstr eq_refl);
      (split; [try nra; lra|]);
      (split; [intros ->; discriminate Es|]);
      (split; [intros H; try discriminate H; reflexivity|]);
      intros H; try congruence; nra.
Qed.

Lemma colour_stays_lit_witness :
  0 < snd (color 1.2 GATHERED restingParticle 0).
Proof.
  assert (H : 0 < 1.2) by lra.
  apply (colour_stays_lit 1.2 GATHERED restingParticle 0 H).
Defined.

End Frames.

(** ** What the render derives *)

Section View.

Local Open Scope R_scope.

Lemma rem_range x y : 0 <= x -> 0 < y -> 0 <= Js.rem x y < y.
Proof.
  intros Hx Hy. unfold Js.rem, Js.trunc.
  assert (H0 : 0 <= x / y).
  { unfold Rdiv. apply Rmult_le_pos; [exact Hx|].
    left. now apply Rinv_0_lt_compat. }
  destruct (Rle_dec 0 (x / y)) as [_|N]; [|contradiction].
  destruct (base_Int_part (x / y)) as [Hlo Hhi].
  assert (E : x / y * y = x) by (field; lra).
  set (q := IZR (Int_part (x / y))) in *. nra.
Qed.

(** X27: for a seed that is not negative the pseudo-random helper returns a
    number from 0 up to, but not including, 1. *)
Theorem pseudoRandom_unit (seed : R) (Hseed : 0 <= seed) :
  0 <= AppView.pseudoRandom seed < 1.
Proof.
  unfold AppView.pseudoRandom.
  destruct (rem_range (seed * 9301 + 49297) 233280) as [Hlo Hhi]; [nra|lra|].
  set (m := Js.rem (seed * 9301 + 49297) 233280) in *.
  split.
  - apply Rmult_le_pos; [exact Hlo|]. left. apply Rinv_0_lt_compat. lra.
  - apply (Rmult_lt_reg_r 233280); [lra|].
    unfold Rdiv. rewrite Rmult_assoc, Rinv_l by lra. lra.
Qed.

Lemma pseudoRandom_unit_witness : 0 <= AppView.pseudoRandom 1 < 1.
Proof. apply pseudoRandom_unit. lra. Defined.

(** X28: losing the hand hands the camera back: after a callback without a hand
    on a running tracker the scene is told that no gesture is active, the
    stored hand rotation is kept, and the next frame leaves the camera
    where it is. *)
Theorem hand_loss_releases_camera (refs : HandTracker.Refs) (app : AppState)
  (lost : HandTracker.Results) (time : Z) (handRotation : Rotation)
  (rig : Camera.Rig) (fuel : nat)
  (Hactive : HandTracker.active refs = true)
  (Hlost : HandTracker.multiHandLandmarks lost = None
           \/ HandTracker.multiHandLandmarks lost = Some []) :
  let app' := snd (callback lost time (refs, app)) in
  AppView.isGestureActive app' = false
  /\ AppView.handRotationAfter app None handRotation = handRotation
  /\ exists rig',
      Camera.useFrame fuel (AppView.isGestureActive app') handRotation rig
      = Some rig'
      /\ Camera.position rig' = Camera.position rig.
Proof.
  intros app'.
  assert (E : AppView.isGestureActive app' = false).
  { subst app'. unfold callback. simpl fst.
    rewrite (no_hand_reset refs lost time Hactive Hlost). simpl.
    unfold AppView.isGestureActive, App.handleGestureUpdate.
    destruct (useGestures app) eqn:G; simpl; [|now rewrite G].
    now rewrite andb_false_r. }
  split; [exact E|]. split.
  - unfold AppView.handRotationAfter. destruct (negb (useGestures app)); reflexivity.
  - rewrite E. eexists. split; reflexivity.
Qed.

Lemma hand_loss_releases_camera_witness :
  AppView.isGestureActive
    (snd (callback (HandTracker.mkResults None) 2000
            (trackingRefs, galleryOfTen))) = false.
Proof.
  apply (hand_loss_releases_camera trackingRefs galleryOfTen
           (HandTracker.mkResults None) 2000 (mkRotation 0 0)
           Camera.initialRig 0 eq_refl (or_introl eq_refl)).
Defined.

End View.
